(** * Word Duel: letter pool, word validation, hint cards and the game state
      machine of [src/src/App.tsx], as a shallow embedding.

    Conventions of the model.
    - A JavaScript string is a [string] over the code units 0-255.  [trim]
      and the class [\s] strip every white space character and line
      terminator of that range: tab, line feed, vertical tab, form feed,
      carriage return (codes 9-13), space (32) and no-break space (160).
      [toUpperCase] and [toLowerCase] map the letters a-z / A-Z, the alphabet
      of the game.
    - A JavaScript number that holds an integer is a [Z].  All the sums of the
      program stay far below 2^53, where doubles are exact.
    - [Record<Letter, number>] is an association list in insertion order, the
      order in which [for ... in] and [Object.keys] enumerate string keys.
    - Objects that the core only reads by key ([contains], [pattern]) are finite
      maps ([gmap]); the dictionary's [Set<string>] is a [gset].
    - An event handler is a function from the current [GameState] and the
      inputs it reads from the component (text fields, dictionary, random
      source) to an [Outcome]. *)

From Stdlib Require Import ZArith List String Ascii Bool Lia Permutation.
From stdpp Require Import base gmap strings.
Import ListNotations.
Open Scope string_scope.
Open Scope list_scope.
Open Scope Z_scope.

(* ===================================================================== *)
(** ** Strings *)

Definition isLowerAscii (c : ascii) : bool :=
  let n := nat_of_ascii c in (97 <=? n)%nat && (n <=? 122)%nat.

Definition isUpperAscii (c : ascii) : bool :=
  let n := nat_of_ascii c in (65 <=? n)%nat && (n <=? 90)%nat.

Definition upperChar (c : ascii) : ascii :=
  if isLowerAscii c then ascii_of_nat (nat_of_ascii c - 32) else c.

Definition lowerChar (c : ascii) : ascii :=
  if isUpperAscii c then ascii_of_nat (nat_of_ascii c + 32) else c.

(** [s.toUpperCase()] *)
Fixpoint toUpperCase (s : string) : string :=
  match s with
  | EmptyString => EmptyString
  | String c rest => String (upperChar c) (toUpperCase rest)
  end.

(** [s.toLowerCase()] *)
Fixpoint toLowerCase (s : string) : string :=
  match s with
  | EmptyString => EmptyString
  | String c rest => String (lowerChar c) (toLowerCase rest)
  end.

(** The white space that [trim] strips and [\s] matches: codes 9-13, the
    space and the no-break space. *)
Definition isWhiteSpace (c : ascii) : bool :=
  let n := nat_of_ascii c in
  ((9 <=? n)%nat && (n <=? 13)%nat) || (n =? 32)%nat || (n =? 160)%nat.

Fixpoint trimStart (s : string) : string :=
  match s with
  | EmptyString => EmptyString
  | String c rest => if isWhiteSpace c then trimStart rest else s
  end.

Fixpoint trimEnd (s : string) : string :=
  match s with
  | EmptyString => EmptyString
  | String c rest =>
      match trimEnd rest with
      | EmptyString => if isWhiteSpace c then EmptyString else String c EmptyString
      | kept => String c kept
      end
  end.

(** [s.trim()] *)
Definition trim (s : string) : string := trimEnd (trimStart s).

(** [!s]: the empty string is the only falsy string. *)
Definition isEmptyString (s : string) : bool :=
  match s with EmptyString => true | String _ _ => false end.

(** [s.split('')] *)
Definition chars (s : string) : list ascii := list_ascii_of_string s.

(** [s.length] *)
Definition strLength (s : string) : Z := Z.of_nat (String.length s).

(** [s.includes(pat)] *)
Fixpoint includes (s pat : string) : bool :=
  String.prefix pat s
  || match s with
     | EmptyString => false
     | String _ rest => includes rest pat
     end.

(* ===================================================================== *)
(** ** Objects with enumerable keys *)

Section AssocObject.
Context {K V : Type} (keq : K -> K -> bool).

(** [o[k]]: [None] is [undefined]. *)
Fixpoint get (o : list (K * V)) (k : K) : option V :=
  match o with
  | [] => None
  | (k', v) :: rest => if keq k' k then Some v else get rest k
  end.

(** [o[k] = v]: an existing key keeps its place, a new key goes last. *)
Fixpoint put (o : list (K * V)) (k : K) (v : V) : list (K * V) :=
  match o with
  | [] => [(k, v)]
  | (k', v') :: rest =>
      if keq k' k then (k', v) :: rest else (k', v') :: put rest k v
  end.

(** [Object.keys(o)], also the order of [for (const k in o)]. *)
Definition keys (o : list (K * V)) : list K := map fst o.

End AssocObject.

Definition Letter := ascii.

(** [Record<Letter, number>] *)
Definition Counts := list (Letter * Z).

(** [counts[letter] || 0] *)
Definition getCount (counts : Counts) (letter : Letter) : Z :=
  match get Ascii.eqb counts letter with
  | Some n => n
  | None => 0
  end.

Definition putCount (counts : Counts) (letter : Letter) (n : Z) : Counts :=
  put Ascii.eqb counts letter n.

(** The number of tiles an inventory holds. *)
Definition totalCount (counts : Counts) : Z :=
  fold_right (fun e acc => snd e + acc) 0 counts.

(* ===================================================================== *)
(** ** Constants (lines 48-58) *)

Definition WRONG_GUESS_PENALTY : Z := 2.
Definition MIN_WORD_LENGTH : Z := 3.

Definition SCRABBLE_COUNTS : Counts :=
  [ ("A"%char, 9); ("B"%char, 2); ("C"%char, 2); ("D"%char, 4); ("E"%char, 12);
    ("F"%char, 2); ("G"%char, 3); ("H"%char, 2); ("I"%char, 9); ("J"%char, 1);
    ("K"%char, 1); ("L"%char, 4); ("M"%char, 2); ("N"%char, 6); ("O"%char, 8);
    ("P"%char, 2); ("Q"%char, 1); ("R"%char, 6); ("S"%char, 4); ("T"%char, 6);
    ("U"%char, 4); ("V"%char, 2); ("W"%char, 2); ("X"%char, 1); ("Y"%char, 2);
    ("Z"%char, 1) ].

Definition VOWELS : list Letter :=
  [ "A"%char; "E"%char; "I"%char; "O"%char; "U"%char ].

(** [VOWELS.has(l)] *)
Definition isVowel (l : Letter) : bool := existsb (Ascii.eqb l) VOWELS.

(* ===================================================================== *)
(** ** countLetters and canBuild (lines 69-86) *)

Definition countLetters (word : string) : Counts :=
  fold_left
    (fun counts letter => putCount counts letter (getCount counts letter + 1))
    (chars (toUpperCase word)) [].

(** The loop of [canBuild] over the keys of [needed]: the first key whose
    available count is below the needed one returns [false].  A comparison
    with [undefined] is false in JavaScript, hence the [None] branch. *)
Fixpoint canBuildLoop (available needed : Counts) (letters : list Letter) : bool :=
  match letters with
  | [] => true
  | letter :: rest =>
      match get Ascii.eqb needed letter with
      | Some n =>
          if getCount available letter <? n then false
          else canBuildLoop available needed rest
      | None => canBuildLoop available needed rest
      end
  end.

Definition canBuild (word : string) (available : Counts) : bool :=
  let needed := countLetters word in
  canBuildLoop available needed (keys needed).

(* ===================================================================== *)
(** ** The random source (lines 60-67)

    [randomFloat] reads one [Uint32] [k] and returns [k / 2^32].  The model
    keeps the numerator: a float [x] in [[0,1)] is the integer [x * 2^32], and
    the products and differences below are carried out on that scale.  They are
    exact in the source too, every value being a multiple of [2^-32] below
    [2^53 * 2^-32].  A random source is the sequence of the [Uint32] values still
    to come. *)

Definition Rand := nat -> Z.

Definition UNIT : Z := 2 ^ 32.

Definition randomFloat (r : Rand) : Z * Rand :=
  (r O mod UNIT, fun n => r (S n)).

(* ===================================================================== *)
(** ** drawLetters (lines 98-122) *)

(** The inner [for j] loop: [rand -= weights[j]; if (rand <= 0) ...]. *)
Fixpoint pickLetter (pool : Counts) (rand : Z) : option Letter :=
  match pool with
  | [] => None
  | (letter, weight) :: rest =>
      let rand' := rand - weight * UNIT in
      if rand' <=? 0 then Some letter else pickLetter rest rand'
  end.

(** The outer [for i] loop, [n] iterations left. *)
Fixpoint drawLoop (n : nat) (pool result : Counts) (r : Rand) : Counts * Rand :=
  match n with
  | O => (result, r)
  | S n' =>
      let total := totalCount pool in
      if total =? 0 then (result, r)
      else
        let (k, r') := randomFloat r in
        match pickLetter pool (k * total) with
        | Some letter =>
            drawLoop n'
              (putCount pool letter (getCount pool letter - 1))
              (putCount result letter (getCount result letter + 1))
              r'
        | None => drawLoop n' pool result r'
        end
  end.

Definition drawLetters (poolCounts : Counts) (n : nat) (r : Rand) : Counts * Rand :=
  drawLoop n poolCounts [] r.

(* ===================================================================== *)
(** ** drawVowelsAndConsonants (lines 124-147) *)

Record Draw := mkDraw {
  vowels : Counts;
  consonants : Counts;
  combined : Counts
}.

(** The [for (const letter in SCRABBLE_COUNTS)] loop that fills the two pools. *)
Definition splitPools : Counts * Counts :=
  fold_left
    (fun pools l =>
       if isVowel l
       then (putCount (fst pools) l (getCount SCRABBLE_COUNTS l), snd pools)
       else (fst pools, putCount (snd pools) l (getCount SCRABBLE_COUNTS l)))
    (keys SCRABBLE_COUNTS) ([], []).

Definition vowelPool : Counts := fst splitPools.

Definition consonantPool : Counts := snd splitPools.

(** [combined[l] = (combined[l] || 0) + consonants[l]] for each key. *)
Definition mergeCounts (into from : Counts) : Counts :=
  fold_left
    (fun acc e => putCount acc (fst e) (getCount acc (fst e) + snd e))
    from into.

Definition drawVowelsAndConsonants (r : Rand) : Draw * Rand :=
  let (vs, r1) := drawLetters vowelPool 4 r in
  let (cs, r2) := drawLetters consonantPool 7 r1 in
  (mkDraw vs cs (mergeCounts vs cs), r2).

(* ===================================================================== *)
(** ** The dictionary (lines 149-260), by its interface *)

(** [words: Set<string> | null] *)
Definition Dictionary := option (gset string).

Definition isReady (d : Dictionary) : bool :=
  match d with Some _ => true | None => false end.

Definition isValidWord (d : Dictionary) (word : string) : bool :=
  match d with
  | None => false
  | Some words => bool_decide (trim (toLowerCase word) ∈ words)
  end.

(* ===================================================================== *)
(** ** Data model (lines 6-46) *)

(** [RevealedInfo]: every field is optional.  The field [length] of the source
    is [rv_length] here. *)
Record RevealedInfo := mkRevealed {
  rv_length : option Z;
  firstLetter : option Letter;
  lastLetter : option Letter;
  vowelCount : option Z;
  contains : option (gmap string bool);
  knownLetters : option (list Letter);
  pattern : option (gmap nat Letter)
}.

(** The object literal [{}]. *)
Definition noRevealed : RevealedInfo :=
  mkRevealed None None None None None None None.

(** [{ ...revealed, field: v }], one function per field. *)
Definition setLength (rv : RevealedInfo) (n : Z) : RevealedInfo :=
  mkRevealed (Some n) (firstLetter rv) (lastLetter rv) (vowelCount rv)
    (contains rv) (knownLetters rv) (pattern rv).

Definition setFirstLetter (rv : RevealedInfo) (l : Letter) : RevealedInfo :=
  mkRevealed (rv_length rv) (Some l) (lastLetter rv) (vowelCount rv)
    (contains rv) (knownLetters rv) (pattern rv).

Definition setLastLetter (rv : RevealedInfo) (l : Letter) : RevealedInfo :=
  mkRevealed (rv_length rv) (firstLetter rv) (Some l) (vowelCount rv)
    (contains rv) (knownLetters rv) (pattern rv).

Definition setVowelCount (rv : RevealedInfo) (n : Z) : RevealedInfo :=
  mkRevealed (rv_length rv) (firstLetter rv) (lastLetter rv) (Some n)
    (contains rv) (knownLetters rv) (pattern rv).

Definition setContains (rv : RevealedInfo) (m : gmap string bool) : RevealedInfo :=
  mkRevealed (rv_length rv) (firstLetter rv) (lastLetter rv) (vowelCount rv)
    (Some m) (knownLetters rv) (pattern rv).

Definition setKnownLetters (rv : RevealedInfo) (ls : list Letter) : RevealedInfo :=
  mkRevealed (rv_length rv) (firstLetter rv) (lastLetter rv) (vowelCount rv)
    (contains rv) (Some ls) (pattern rv).

Definition setPattern (rv : RevealedInfo) (m : gmap nat Letter) : RevealedInfo :=
  mkRevealed (rv_length rv) (firstLetter rv) (lastLetter rv) (vowelCount rv)
    (contains rv) (knownLetters rv) (Some m).

Record PlayerSecret := mkSecret {
  letters : Counts;
  word : string
}.

Record PlayerPublic := mkPublic {
  score : Z;
  guessSolved : bool;
  revealed : RevealedInfo
}.

Record Player := mkPlayer {
  secret : option PlayerSecret;
  public : PlayerPublic
}.

Inductive Mode := HIGH_WINS.

Inductive Phase :=
| START | SETUP_P1 | SETUP_P2
| PASS_TO_GUESS_P1 | GUESS_P1 | PASS_TO_GUESS_P2 | GUESS_P2
| ENDGAME.

Record Swap := mkSwap {
  p1Gets : Counts;
  p2Gets : Counts
}.

(** An entry [{ player, card, cost }] of [hintLog]. *)
Record HintLogEntry := mkHintLogEntry {
  hintPlayer : string;
  hintCard : string;
  hintCost : Z
}.

(** An entry [{ player, word, penalty }] of [wrongGuesses]. *)
Record WrongGuess := mkWrongGuess {
  wrongPlayer : string;
  wrongWord : string;
  wrongPenalty : Z
}.

Record GameState := mkGame {
  mode : Mode;
  minWordLen : Z;
  phase : Phase;
  p1 : Player;
  p2 : Player;
  swap : option Swap;
  dictionaryReady : bool;
  hintLog : list HintLogEntry;
  wrongGuesses : list WrongGuess
}.

(** [{ ...g, field: v }], one function per field that a handler replaces. *)
Definition setPhase (g : GameState) (ph : Phase) : GameState :=
  mkGame (mode g) (minWordLen g) ph (p1 g) (p2 g) (swap g)
    (dictionaryReady g) (hintLog g) (wrongGuesses g).

Definition setP1 (g : GameState) (p : Player) : GameState :=
  mkGame (mode g) (minWordLen g) (phase g) p (p2 g) (swap g)
    (dictionaryReady g) (hintLog g) (wrongGuesses g).

Definition setP2 (g : GameState) (p : Player) : GameState :=
  mkGame (mode g) (minWordLen g) (phase g) (p1 g) p (swap g)
    (dictionaryReady g) (hintLog g) (wrongGuesses g).

Definition setSwap (g : GameState) (s : Swap) : GameState :=
  mkGame (mode g) (minWordLen g) (phase g) (p1 g) (p2 g) (Some s)
    (dictionaryReady g) (hintLog g) (wrongGuesses g).

Definition setDictionaryReady (g : GameState) (b : bool) : GameState :=
  mkGame (mode g) (minWordLen g) (phase g) (p1 g) (p2 g) (swap g)
    b (hintLog g) (wrongGuesses g).

Definition setHintLog (g : GameState) (l : list HintLogEntry) : GameState :=
  mkGame (mode g) (minWordLen g) (phase g) (p1 g) (p2 g) (swap g)
    (dictionaryReady g) l (wrongGuesses g).

Definition setWrongGuesses (g : GameState) (l : list WrongGuess) : GameState :=
  mkGame (mode g) (minWordLen g) (phase g) (p1 g) (p2 g) (swap g)
    (dictionaryReady g) (hintLog g) l.

(** [{ score: 0, guessSolved: false, revealed: {} }] *)
Definition freshPublic : PlayerPublic := mkPublic 0 false noRevealed.

(** The initial value of [useState<GameState>] (lines 381-391); [resetGame]
    builds the same value with the loader's readiness (lines 600-611). *)
Definition newGame (ready : bool) : GameState :=
  mkGame HIGH_WINS MIN_WORD_LENGTH START
    (mkPlayer None freshPublic) (mkPlayer None freshPublic)
    None ready [] [].

Definition initialState : GameState := newGame false.

(* ===================================================================== *)
(** ** Hint cards (lines 39-46 and 264-378)

    An effect receives the opponent's word, the player's revealed record, the
    text of the card input and the random source.  [None] is the [TypeError] of
    calling [toUpperCase] on [undefined]. *)

Definition Effect :=
  string -> RevealedInfo -> string -> Rand -> option (RevealedInfo * Rand).

Record HintCard := mkCard {
  cardId : string;
  name : string;
  description : string;
  cost : Z;
  requiresInput : bool;
  effect : Effect
}.

(** [word[word.length - 1]] *)
Fixpoint lastChar (s : string) : option ascii :=
  match s with
  | EmptyString => None
  | String c EmptyString => Some c
  | String _ rest => lastChar rest
  end.

(** [Array.from(new Set(xs))]: the first occurrence of each element, in order. *)
Definition uniqueLetters (xs : list ascii) : list ascii :=
  fold_left
    (fun seen x => if existsb (Ascii.eqb x) seen then seen else seen ++ [x])
    xs [].

(** [xs[Math.floor(randomFloat() * xs.length)]] for the random numerator [k]. *)
Definition pickAt {A : Type} (xs : list A) (k : Z) : option A :=
  nth_error xs (Z.to_nat (k * Z.of_nat (List.length xs) / UNIT)).

Definition lastLetterEffect : Effect := fun w rv _ r =>
  match lastChar w with
  | Some c => Some (setLastLetter rv (upperChar c), r)
  | None => None
  end.

Definition wordLengthEffect : Effect := fun w rv _ r =>
  Some (setLength rv (strLength w), r).

Definition vowelCountEffect : Effect := fun w rv _ r =>
  let count :=
    Z.of_nat (List.length (List.filter (fun c => isVowel (upperChar c)) (chars w))) in
  Some (setVowelCount rv count, r).

Definition firstLetterEffect : Effect := fun w rv _ r =>
  match w with
  | String c _ => Some (setFirstLetter rv (upperChar c), r)
  | EmptyString => None
  end.

Definition containsLetterEffect : Effect := fun w rv input r =>
  if isEmptyString input then Some (rv, r)
  else
    let letter := toUpperCase input in
    let has := includes (toUpperCase w) letter in
    Some (setContains rv (<[ letter := has ]> (default ∅ (contains rv))), r).

Definition randomLetterEffect : Effect := fun w rv _ r =>
  let ls := map upperChar (chars w) in
  let unique := uniqueLetters ls in
  let existing := default [] (knownLetters rv) in
  let available :=
    List.filter (fun l => negb (existsb (Ascii.eqb l) existing)) unique in
  match available with
  | [] => Some (rv, r)
  | _ :: _ =>
      let (k, r') := randomFloat r in
      match pickAt available k with
      | Some randomLetter =>
          Some (setKnownLetters rv (existing ++ [randomLetter]), r')
      | None => Some (rv, r')  (* not reached: the index is below the length *)
      end
  end.

Definition patternPeekEffect : Effect := fun w rv _ r =>
  let pat := default ∅ (pattern rv) in
  let available :=
    List.filter (fun i => match pat !! i with Some _ => false | None => true end)
      (seq 0 (String.length w)) in
  match available with
  | [] => Some (rv, r)
  | _ :: _ =>
      let (k, r') := randomFloat r in
      match pickAt available k with
      | Some idx =>
          match String.get idx w with
          | Some c => Some (setPattern rv (<[ idx := upperChar c ]> pat), r')
          | None => None
          end
      | None => Some (rv, r')  (* not reached: the index is below the length *)
      end
  end.

Definition doubleTroubleEffect : Effect := fun w rv _ r =>
  let ls := chars (toLowerCase w) in
  let hasDuplicates :=
    (List.length (uniqueLetters ls) <? List.length ls)%nat in
  Some (setContains rv
          (<[ "_DUPLICATES_" := hasDuplicates ]> (default ∅ (contains rv))), r).

Definition lastLetterCard : HintCard :=
  mkCard "last-letter" "Last Letter" "Reveal the final letter" 1 false
    lastLetterEffect.

Definition wordLengthCard : HintCard :=
  mkCard "word-length" "Word Length" "Reveal the length of the word" 3 false
    wordLengthEffect.

Definition vowelCountCard : HintCard :=
  mkCard "vowel-count" "Vowel Count" "Reveal how many vowels" 2 false
    vowelCountEffect.

Definition firstLetterCard : HintCard :=
  mkCard "first-letter" "First Letter" "Reveal the first letter" 3 false
    firstLetterEffect.

Definition containsLetterCard : HintCard :=
  mkCard "contains-letter" "Contains Letter?"
    "Check if word contains a specific letter" 1 true containsLetterEffect.

Definition randomLetterCard : HintCard :=
  mkCard "random-letter" "Random Letter"
    "Reveal one random letter (position hidden)" 3 false randomLetterEffect.

Definition patternPeekCard : HintCard :=
  mkCard "pattern-peek" "Pattern Peek" "Reveal one letter at its position" 4
    false patternPeekEffect.

Definition doubleTroubleCard : HintCard :=
  mkCard "double-trouble" "Double Trouble" "Are there any repeated letters?" 2
    false doubleTroubleEffect.

Definition HINT_CARDS : list HintCard :=
  [ lastLetterCard; wordLengthCard; vowelCountCard; firstLetterCard;
    containsLetterCard; randomLetterCard; patternPeekCard; doubleTroubleCard ].

(* ===================================================================== *)
(** ** Handlers of the component (lines 413-615) *)

(** The texts passed to [setError], by the error kind each one reports:
    - [DictionaryNotReady]: 'Dictionary still loading...'
    - [TooShort]: 'Word must be at least 3 letters'
    - [CannotBuild]: 'Cannot build this word with available letters'
    - [NotInDictionary]: 'Word not in dictionary'
    - [MissingHintInput]: 'Please enter a letter'
    - [EmptyGuess]: 'Enter a word to guess'
    - [WrongGuessNotice w]: the notice that [w] is incorrect and gives 2 points
      to the opponent. *)
Inductive Message :=
| DictionaryNotReady
| TooShort
| CannotBuild
| NotInDictionary
| MissingHintInput
| EmptyGuess
| WrongGuessNotice (guess : string).

(** What a handler leaves behind: the game state after it, the message it
    passed to [setError] ([None] when it passed none or the empty text) and the
    random values still unread; or the [TypeError] it threw, in which case no
    state was set. *)
Inductive Outcome :=
| Done (next : GameState) (error : option Message) (rest : Rand)
| TypeError.

(** The game state once the handler is over. *)
Definition stateAfter (g : GameState) (o : Outcome) : GameState :=
  match o with
  | Done g' _ _ => g'
  | TypeError => g
  end.

Definition startGame (g : GameState) (r : Rand) : Outcome :=
  if negb (dictionaryReady g) then Done g (Some DictionaryNotReady) r
  else
    let (d, r') := drawVowelsAndConsonants r in
    Done (setP1 (setPhase g SETUP_P1)
            (mkPlayer (Some (mkSecret (combined d) "")) freshPublic))
         None r'.

Definition validateWord (dict : Dictionary) (w : string) (ls : Counts)
  : option Message :=
  if strLength w <? MIN_WORD_LENGTH then Some TooShort
  else if negb (canBuild w ls) then Some CannotBuild
  else if negb (isValidWord dict w) then Some NotInDictionary
  else None.

(** [gameState.phase === 'SETUP_P1'] *)
Definition isSetupP1 (g : GameState) : bool :=
  match phase g with SETUP_P1 => true | _ => false end.

Definition confirmSetupWord (dict : Dictionary) (g : GameState)
    (setupWord : string) (r : Rand) : Outcome :=
  let player := if isSetupP1 g then p1 g else p2 g in
  match secret player with
  | None => Done g None r
  | Some sec =>
      match validateWord dict setupWord (letters sec) with
      | Some validationError => Done g (Some validationError) r
      | None =>
          let confirmed := mkSecret (letters sec) (toLowerCase setupWord) in
          if isSetupP1 g then
            let (d, r') := drawVowelsAndConsonants r in
            Done (setP2
                    (setP1 (setPhase g SETUP_P2)
                       (mkPlayer (Some confirmed) (public (p1 g))))
                    (mkPlayer (Some (mkSecret (combined d) "")) freshPublic))
                 None r'
          else
            match secret (p1 g) with
            | None => TypeError  (* prev.p1.secret!.letters *)
            | Some sec1 =>
                Done (setSwap
                        (setP2 (setPhase g PASS_TO_GUESS_P1)
                           (mkPlayer (Some confirmed) (public (p2 g))))
                        (mkSwap (letters sec) (letters sec1)))
                     None r
            end
      end
  end.

Definition proceedToGuess (g : GameState) (r : Rand) : Outcome :=
  match phase g with
  | PASS_TO_GUESS_P1 => Done (setPhase g GUESS_P1) None r
  | PASS_TO_GUESS_P2 => Done (setPhase g GUESS_P2) None r
  | _ => Done g None r
  end.

(** [const isP1 = gameState.phase === 'GUESS_P1'] *)
Definition isP1 (g : GameState) : bool :=
  match phase g with GUESS_P1 => true | _ => false end.

(** [first ? g.p1 : g.p2] *)
Definition playerOf (first : bool) (g : GameState) : Player :=
  if first then p1 g else p2 g.

(** [isP1 ? 'Player 1' : 'Player 2'] *)
Definition playerLabel (first : bool) : string :=
  if first then "Player 1" else "Player 2".

(** [isP1 ? 'PASS_TO_GUESS_P2' : 'PASS_TO_GUESS_P1'] *)
Definition passPhaseAfter (first : bool) : Phase :=
  if first then PASS_TO_GUESS_P2 else PASS_TO_GUESS_P1.

Definition playHintCard (g : GameState) (card : HintCard) (cardInput : string)
    (r : Rand) : Outcome :=
  let me := isP1 g in
  let opponent := playerOf (negb me) g in
  let player := playerOf me g in
  match secret opponent with
  | None => Done g None r
  | Some opponentSecret =>
      if requiresInput card && isEmptyString (trim cardInput)
      then Done g (Some MissingHintInput) r
      else
        match effect card (word opponentSecret) (revealed (public player))
                cardInput r with
        | None => TypeError
        | Some (newRevealed, r') =>
            let updatedOpponent :=
              mkPlayer (secret opponent)
                (mkPublic (score (public opponent) + cost card)
                   (guessSolved (public opponent))
                   (revealed (public opponent))) in
            let updatedPlayer :=
              mkPlayer (secret player)
                (mkPublic (score (public player))
                   (guessSolved (public player)) newRevealed) in
            let newHintLog :=
              hintLog g ++ [mkHintLogEntry (playerLabel me) (name card) (cost card)] in
            let bothSolved :=
              guessSolved (public updatedPlayer)
              && guessSolved (public updatedOpponent) in
            Done (mkGame (mode g) (minWordLen g)
                    (if bothSolved then ENDGAME else passPhaseAfter me)
                    (if me then updatedPlayer else updatedOpponent)
                    (if me then updatedOpponent else updatedPlayer)
                    (swap g) (dictionaryReady g) newHintLog (wrongGuesses g))
                 None r'
        end
  end.

Definition submitGuess (g : GameState) (guessWord : string) (r : Rand)
  : Outcome :=
  if isEmptyString (trim guessWord) then Done g (Some EmptyGuess) r
  else
    let me := isP1 g in
    let opponent := playerOf (negb me) g in
    let player := playerOf me g in
    match secret opponent with
    | None => Done g None r
    | Some opponentSecret =>
        let correct := String.eqb (toLowerCase guessWord) (word opponentSecret) in
        if correct then
          let updatedPlayer :=
            mkPlayer (secret player)
              (mkPublic (score (public player)) true (revealed (public player))) in
          let bothSolved :=
            guessSolved (public updatedPlayer) && guessSolved (public opponent) in
          Done (mkGame (mode g) (minWordLen g)
                  (if bothSolved then ENDGAME else passPhaseAfter me)
                  (if me then updatedPlayer else opponent)
                  (if me then opponent else updatedPlayer)
                  (swap g) (dictionaryReady g) (hintLog g) (wrongGuesses g))
               None r
        else
          let updatedOpponent :=
            mkPlayer (secret opponent)
              (mkPublic (score (public opponent) + WRONG_GUESS_PENALTY)
                 (guessSolved (public opponent))
                 (revealed (public opponent))) in
          let newWrongGuesses :=
            wrongGuesses g
            ++ [mkWrongGuess (playerLabel me) guessWord WRONG_GUESS_PENALTY] in
          Done (mkGame (mode g) (minWordLen g)
                  (passPhaseAfter me)
                  (if me then player else updatedOpponent)
                  (if me then updatedOpponent else player)
                  (swap g) (dictionaryReady g) (hintLog g) newWrongGuesses)
               (Some (WrongGuessNotice guessWord)) r
    end.

Definition resetGame (dict : Dictionary) (r : Rand) : Outcome :=
  Done (newGame (isReady dict)) None r.

(** The [useEffect] callback that runs when the dictionary has loaded
    (lines 401-411). *)
Definition dictionaryLoaded (g : GameState) (r : Rand) : Outcome :=
  Done (setDictionaryReady g true) None r.

(* ===================================================================== *)
(** ** The state machine: which handler each phase's screen can call
       (lines 617-1077) *)

Inductive Action :=
| ClickStart
| ClickConfirm (setupWord : string)
| ClickProceed
| ClickUseCard (card : HintCard) (cardInput : string)
| SubmitGuess (guessWord : string)
| ClickPlayAgain
| DictionaryLoaded.

(** The START screen shows the start button, the SETUP screens the confirm
    button, the PASS screens the ready button, the GUESS screens the guess
    field and the cards of [HINT_CARDS], and the ENDGAME screen the play-again
    button.  A control that is not on screen cannot be used. *)
Definition dispatch (dict : Dictionary) (g : GameState) (a : Action) (r : Rand)
  : Outcome :=
  match a, phase g with
  | ClickStart, START => startGame g r
  | ClickConfirm w, (SETUP_P1 | SETUP_P2) => confirmSetupWord dict g w r
  | ClickProceed, (PASS_TO_GUESS_P1 | PASS_TO_GUESS_P2) => proceedToGuess g r
  | ClickUseCard c input, (GUESS_P1 | GUESS_P2) => playHintCard g c input r
  | SubmitGuess w, (GUESS_P1 | GUESS_P2) => submitGuess g w r
  | ClickPlayAgain, ENDGAME => resetGame dict r
  | DictionaryLoaded, _ => dictionaryLoaded g r
  | _, _ => Done g None r
  end.

(** The card list of the GUESS screens is [HINT_CARDS]. *)
Definition offered (a : Action) : Prop :=
  match a with
  | ClickUseCard c _ => In c HINT_CARDS
  | _ => True
  end.

Definition isReset (a : Action) : bool :=
  match a with ClickPlayAgain => true | _ => false end.

(** The states the component can be in: the initial one, and the state after
    any offered action in a reachable state, whatever the dictionary and the
    random values are. *)
Inductive reachable : GameState -> Prop :=
| reachable_initial : reachable initialState
| reachable_step (g : GameState) (dict : Dictionary) (a : Action) (r : Rand) :
    reachable g -> offered a ->
    reachable (stateAfter g (dispatch dict g a r)).

(** The random values a handler has left unread. *)
Definition restAfter (r : Rand) (o : Outcome) : Rand :=
  match o with
  | Done _ _ r' => r'
  | TypeError => r
  end.

(** A sequence of actions, each on the state the previous one left. *)
Fixpoint run (dict : Dictionary) (g : GameState) (r : Rand)
    (actions : list Action) : GameState * Rand :=
  match actions with
  | [] => (g, r)
  | a :: rest =>
      let o := dispatch dict g a r in
      run dict (stateAfter g o) (restAfter r o) rest
  end.

(* ===================================================================== *)
(** ** Specification-side notions used by the statements below *)

(** The game is in one of the two guessing phases. *)
Definition guessPhase (g : GameState) : Prop :=
  phase g = GUESS_P1 \/ phase g = GUESS_P2.

(** The player has a secret record. *)
Definition hasSecret (p : Player) : Prop :=
  exists sec, secret p = Some sec.

(** The player has a secret record that holds a word. *)
Definition secretWordSet (p : Player) : Prop :=
  exists sec, secret p = Some sec /\ word sec <> "".

(** The text is empty or white space only: the handlers' [!text.trim()]. *)
Definition blank (text : string) : Prop := trim text = "".


(** The player's public record is the fresh one as far as the score and the
    solved flag go. *)
Definition freshSide (p : Player) : Prop :=
  score (public p) = 0 /\ guessSolved (public p) = false.

(** The player has a secret whose word passed the length check. *)
Definition confirmedSecret (p : Player) : Prop :=
  exists sec, secret p = Some sec /\ 3 <= strLength (word sec).

(** The phases that follow the two setups. *)
Definition afterSetup (ph : Phase) : bool :=
  match ph with
  | PASS_TO_GUESS_P1 | GUESS_P1 | PASS_TO_GUESS_P2 | GUESS_P2 | ENDGAME => true
  | START | SETUP_P1 | SETUP_P2 => false
  end.

(** What holds in every state the component can be in: a player whose setup
    has not begun has score 0 and has solved nothing, and a player whose
    setup is over has a confirmed secret. *)
Definition wellFormed (g : GameState) : Prop :=
  (phase g = START -> freshSide (p1 g))
  /\ (phase g = START \/ phase g = SETUP_P1 -> freshSide (p2 g))
  /\ (phase g = SETUP_P1 -> hasSecret (p1 g))
  /\ (phase g = SETUP_P2 -> confirmedSecret (p1 g) /\ hasSecret (p2 g))
  /\ (afterSetup (phase g) = true ->
      confirmedSecret (p1 g) /\ confirmedSecret (p2 g)).

(** Neither score is lower and no solved flag is lost in [g'] than in [g]. *)
Definition nothingLost (g g' : GameState) : Prop :=
  score (public (p1 g)) <= score (public (p1 g'))
  /\ score (public (p2 g)) <= score (public (p2 g'))
  /\ (guessSolved (public (p1 g)) = true -> guessSolved (public (p1 g')) = true)
  /\ (guessSolved (public (p2 g)) = true -> guessSolved (public (p2 g')) = true).

(** Every letter of the word, uppercased, is among the known letters. *)
Definition allLettersKnown (w : string) (rv : RevealedInfo) : Prop :=
  forall c, In c (chars (toUpperCase w)) -> In c (default [] (knownLetters rv)).

(** How many times the word needs [c], letter case ignored. *)
Definition requiredCount (w : string) (c : Letter) : Z :=
  Z.of_nat (count_occ ascii_dec (chars (toUpperCase w)) c).

(** An inventory holds no negative count. *)
Definition validInventory (inv : Counts) : Prop :=
  Forall (fun e => 0 <= snd e) inv.

(** The word can be formed from the inventory's letters, with multiplicity. *)
Definition formable (w : string) (inv : Counts) : Prop :=
  forall c : Letter, requiredCount w c <= getCount inv c.

(** The dictionary reports the lowercase-trimmed word absent; a dictionary
    that has not loaded reports every word absent. *)
Definition reportsAbsent (dict : Dictionary) (w : string) : Prop :=
  match dict with
  | Some words => trim (toLowerCase w) ∉ words
  | None => True
  end.

(** The tiles of an inventory whose letter satisfies [p]. *)
Definition countWhere (p : Letter -> bool) (inv : Counts) : Z :=
  totalCount (List.filter (fun e => p (fst e)) inv).

Definition isConsonant (l : Letter) : bool := negb (isVowel l).

(* ===================================================================== *)
(** ** Concrete values used by the examples *)

(** A random source and the inventory drawn from it: A2 E2 L1 N1 R2 T2 X1. *)
Definition exampleRand : Rand := fun n => Z.of_nat n * 400000000 + 12345.

Definition exampleInventory : Counts :=
  combined (fst (drawVowelsAndConsonants exampleRand)).

(** The random source whose every value is 0. *)
Definition zeroRand : Rand := fun _ => 0.

Definition exampleDictionary : Dictionary :=
  Some ({[ "rattle"; "eel"; "tree"; "stream"; "cab" ]} : gset string).

(** A revealed record whose pattern holds every position of the word [eel]. *)
Definition eelRevealed : RevealedInfo :=
  setPattern noRevealed
    (<[0%nat := "E"%char]> (<[1%nat := "E"%char]> (<[2%nat := "L"%char]> ∅))).

(** The game after the dictionary has loaded, player 1 has confirmed
    [rattle], player 2 has confirmed [stream] (from A2 E2 M1 N1 R1 S1 T1 V1
    Y1) and player 1 has taken the device: player 1 is guessing. *)
Definition exampleActions : list Action :=
  [ DictionaryLoaded; ClickStart; ClickConfirm "rattle";
    ClickConfirm "stream"; ClickProceed ].

Definition exampleGuessState : GameState :=
  Eval vm_compute in
    fst (run exampleDictionary initialState exampleRand exampleActions).

(* ===================================================================== *)
(** ** Further functions of the component *)

(** [flattenLetters] (lines 88-96): each key, as many times as its count; the
    inner loop [for (i = 0; i < record[letter]; i++)] runs zero times on a
    count that is not positive. *)
Definition flattenLetters (record : Counts) : list Letter :=
  fold_left
    (fun result letter =>
       match get Ascii.eqb record letter with
       | Some n => result ++ repeat letter (Z.to_nat n)
       | None => result
       end)
    (keys record) [].

(** The letters the GUESS screen shows to the guesser (line 771):
    [gameState.swap ? (isP1 ? swap.p1Gets : swap.p2Gets) : {}]. *)
Definition guessLetters (g : GameState) : Counts :=
  match swap g with
  | Some s => if isP1 g then p1Gets s else p2Gets s
  | None => []
  end.



(* ===================================================================== *)
(** ** Specification-side notions for the state machine *)

(** The arrows of the phase diagram. *)
Definition phaseEdge (a b : Phase) : bool :=
  match a, b with
  | START, SETUP_P1
  | SETUP_P1, SETUP_P2
  | SETUP_P2, PASS_TO_GUESS_P1
  | PASS_TO_GUESS_P1, GUESS_P1
  | PASS_TO_GUESS_P2, GUESS_P2
  | GUESS_P1, PASS_TO_GUESS_P2
  | GUESS_P2, PASS_TO_GUESS_P1
  | GUESS_P1, ENDGAME
  | GUESS_P2, ENDGAME
  | ENDGAME, START => true
  | _, _ => false
  end.

(** The hint costs the log records for the player with this label. *)
Definition hintsChargedBy (label : string) (log : list HintLogEntry) : Z :=
  fold_right
    (fun e acc => if String.eqb (hintPlayer e) label then hintCost e + acc else acc)
    0 log.

(** The penalties the log records for the player with this label. *)
Definition penaltiesChargedBy (label : string) (log : list WrongGuess) : Z :=
  fold_right
    (fun e acc =>
       if String.eqb (wrongPlayer e) label then wrongPenalty e + acc else acc)
    0 log.

(** Everything the two logs charge to the opponent of the player with this
    label. *)
Definition chargedBy (label : string) (g : GameState) : Z :=
  hintsChargedBy label (hintLog g) + penaltiesChargedBy label (wrongGuesses g).

(** Both solved flags are set. *)
Definition bothSolved (g : GameState) : bool :=
  guessSolved (public (p1 g)) && guessSolved (public (p2 g)).

(** The secret is a drawn inventory: 11 tiles, no negative count, keys of
    the frequency table. *)
Definition fullInventory (p : Player) : Prop :=
  match secret p with
  | Some sec =>
      totalCount (letters sec) = 11
      /\ validInventory (letters sec)
      /\ incl (keys (letters sec)) (keys SCRABBLE_COUNTS)
  | None => True
  end.

(** What holds besides [wellFormed] in every state the component can be in:
    the game is in ENDGAME exactly when both players have solved; each score is
    what the logs charge on the opponent's turns; every secret holds an
    inventory of 11 tiles; a confirmed word can be built from its player's
    inventory; and once both setups are over the swap record crosses the two
    inventories. *)
Definition settled (g : GameState) : Prop :=
  (phase g = ENDGAME <-> bothSolved g = true)
  /\ score (public (p1 g)) = chargedBy "Player 2" g
  /\ score (public (p2 g)) = chargedBy "Player 1" g
  /\ fullInventory (p1 g) /\ fullInventory (p2 g)
  /\ (phase g = SETUP_P2 ->
      exists s1, secret (p1 g) = Some s1
                 /\ canBuild (word s1) (letters s1) = true)
  /\ (afterSetup (phase g) = true ->
      exists s1 s2,
        secret (p1 g) = Some s1 /\ secret (p2 g) = Some s2
        /\ swap g = Some (mkSwap (letters s2) (letters s1))
        /\ canBuild (word s1) (letters s1) = true
        /\ canBuild (word s2) (letters s2) = true).

(** [xs] is the beginning of [ys]. *)
Definition beginsWith {A : Type} (ys xs : list A) : Prop :=
  exists more, ys = xs ++ more.

(** The random source never yields the value 0. *)
Definition neverZero (r : Rand) : Prop := forall n, r n mod UNIT <> 0.

(** An object has each key once. *)
Definition distinctKeys (o : Counts) : Prop := List.NoDup (keys o).

(** The random source whose every value is 1. *)
Definition oneRand : Rand := fun _ => 1.

(** A list of letters has no letter twice (decided). *)
Fixpoint allDistinct (ls : list Letter) : bool :=
  match ls with
  | [] => true
  | l :: rest => negb (existsb (Ascii.eqb l) rest) && allDistinct rest
  end.

(** Every entry of the pattern is the uppercased character of the word at
    that position. *)
Definition patternCorrect (w : string) (pat : gmap nat Letter) : Prop :=
  forall i c, pat !! i = Some c ->
    exists c', String.get i w = Some c' /\ c = upperChar c'.

(** The letter occurs in the word, letter case ignored. *)
Definition occursIn (c : ascii) (w : string) : Prop :=
  In (upperChar c) (chars (toUpperCase w)).

(** No clue of [rv] is missing from [rv']: a scalar field that is set stays
    set, every key of [contains] stays a key, the known letters are kept in
    order at the front, and every entry of the pattern is kept. *)
Definition neverErased (rv rv' : RevealedInfo) : Prop :=
  (is_Some (rv_length rv) -> is_Some (rv_length rv'))
  /\ (is_Some (firstLetter rv) -> is_Some (firstLetter rv'))
  /\ (is_Some (lastLetter rv) -> is_Some (lastLetter rv'))
  /\ (is_Some (vowelCount rv) -> is_Some (vowelCount rv'))
  /\ (forall k, is_Some (default ∅ (contains rv) !! k) ->
                is_Some (default ∅ (contains rv') !! k))
  /\ beginsWith (default [] (knownLetters rv')) (default [] (knownLetters rv))
  /\ (forall i c, default ∅ (pattern rv) !! i = Some c ->
                  default ∅ (pattern rv') !! i = Some c).

(** The text has a white space character somewhere. *)
Definition hasWhiteSpace (s : string) : Prop :=
  exists c, In c (chars s) /\ isWhiteSpace c = true.

(* ===================================================================== *)
(** ** The word list (lines 176-186)

    The network branch of [loadDictionary] builds the word set from the
    fetched text: [text.split(/\s+/)], the entries of at least
    [MIN_WORD_LENGTH] characters, each lowercased and trimmed.  The fetch, the
    cache and the promise that guards them are outside the model. *)

(** [text.split(/\s+/)]: [cur] is the piece being read, [inRun] tells that the
    previous character was white space.  A text that starts or ends with
    white space has an empty first or last piece, as in JavaScript. *)
Fixpoint splitRuns (s cur : string) (inRun : bool) : list string :=
  match s with
  | EmptyString => [cur]
  | String c rest =>
      if isWhiteSpace c then
        if inRun then splitRuns rest EmptyString true
        else cur :: splitRuns rest EmptyString true
      else splitRuns rest (cur ++ String c EmptyString)%string false
  end.

Definition splitWhiteSpace (text : string) : list string :=
  splitRuns text EmptyString false.

Definition wordsOfText (text : string) : gset string :=
  let wordList :=
    List.filter (fun w => MIN_WORD_LENGTH <=? strLength w)
      (splitWhiteSpace text) in
  list_to_set (map (fun w => trim (toLowerCase w)) wordList).

(** The dictionary once the word list has been fetched. *)
Definition dictionaryOfText (text : string) : Dictionary :=
  Some (wordsOfText text).

(* ===================================================================== *)
(** * Properties *)

(** ** Association lists *)

Section CountsFacts.

Lemma get_put_same (o : Counts) (k : Letter) (v : Z) :
  get Ascii.eqb (put Ascii.eqb o k v) k = Some v.
Proof.
  induction o as [|[k' v'] o IH]; simpl.
  - now rewrite Ascii.eqb_refl.
  - destruct (Ascii.eqb k' k) eqn:E; simpl; rewrite E; auto.
Qed.

Lemma get_put_other (o : Counts) (k k' : Letter) (v : Z) :
  k <> k' -> get Ascii.eqb (put Ascii.eqb o k v) k' = get Ascii.eqb o k'.
Proof.
  intros Hne. induction o as [|[k0 v0] o IH]; simpl.
  - destruct (Ascii.eqb_spec k k'); congruence.
  - destruct (Ascii.eqb_spec k0 k) as [->|Hk]; simpl.
    + destruct (Ascii.eqb_spec k k'); congruence.
    + destruct (Ascii.eqb_spec k0 k'); auto.
Qed.

Lemma getCount_put_same (o : Counts) (k : Letter) (v : Z) :
  getCount (putCount o k v) k = v.
Proof. unfold getCount, putCount. now rewrite get_put_same. Qed.

Lemma getCount_put_other (o : Counts) (k k' : Letter) (v : Z) :
  k <> k' -> getCount (putCount o k v) k' = getCount o k'.
Proof. intros H. unfold getCount, putCount. now rewrite get_put_other. Qed.

Lemma get_None_iff (o : Counts) (k : Letter) :
  get Ascii.eqb o k = None <-> ~ In k (keys o).
Proof.
  induction o as [|[k' v'] o IH]; simpl.
  - tauto.
  - destruct (Ascii.eqb_spec k' k) as [->|Hk]; split; intros H.
    + discriminate.
    + exfalso. apply H. now left.
    + intros [Hx|Hx]; [congruence | now apply IH in H].
    + apply IH. intros Hx. apply H. now right.
Qed.

Lemma get_Some_in (o : Counts) (k : Letter) (v : Z) :
  get Ascii.eqb o k = Some v -> In k (keys o).
Proof.
  intros H. destruct (in_dec ascii_dec k (keys o)) as [Hin|Hout]; auto.
  apply get_None_iff in Hout. congruence.
Qed.

Lemma in_keys_get (o : Counts) (k : Letter) :
  In k (keys o) -> exists v, get Ascii.eqb o k = Some v.
Proof.
  intros Hin. destruct (get Ascii.eqb o k) as [v|] eqn:E; eauto.
  apply get_None_iff in E. contradiction.
Qed.

Lemma in_keys_put (o : Counts) (k k' : Letter) (v : Z) :
  In k' (keys (putCount o k v)) <-> k' = k \/ In k' (keys o).
Proof.
  unfold putCount. induction o as [|[k0 v0] o IH]; simpl.
  - intuition.
  - destruct (Ascii.eqb_spec k0 k) as [->|Hk]; simpl.
    + intuition.
    + rewrite IH. intuition.
Qed.

Lemma getCount_nonneg (inv : Counts) (c : Letter) :
  validInventory inv -> 0 <= getCount inv c.
Proof.
  unfold validInventory, getCount. induction 1 as [|[k v] o Hv _ IH]; simpl.
  - lia.
  - destruct (Ascii.eqb k c); auto.
Qed.

Lemma totalCount_put (o : Counts) (k : Letter) (v : Z) :
  totalCount (putCount o k v) = totalCount o - getCount o k + v.
Proof.
  unfold totalCount, putCount, getCount.
  induction o as [|[k0 v0] o IH]; simpl.
  - lia.
  - destruct (Ascii.eqb k0 k); simpl; lia.
Qed.

End CountsFacts.

(** ** countLetters and canBuild *)

Section CanBuildFacts.

Lemma getCount_fold_count (ls : list Letter) (acc : Counts) (c : Letter) :
  getCount
    (fold_left
       (fun counts letter => putCount counts letter (getCount counts letter + 1))
       ls acc) c
  = getCount acc c + Z.of_nat (count_occ ascii_dec ls c).
Proof.
  revert acc. induction ls as [|l ls IH]; intros acc; simpl.
  - lia.
  - rewrite IH. destruct (ascii_dec l c) as [->|Hne].
    + rewrite getCount_put_same. lia.
    + rewrite getCount_put_other by assumption. lia.
Qed.

Lemma in_keys_fold_count (ls : list Letter) (acc : Counts) (c : Letter) :
  In c (keys
          (fold_left
             (fun counts letter =>
                putCount counts letter (getCount counts letter + 1))
             ls acc))
  <-> In c (keys acc) \/ In c ls.
Proof.
  revert acc. induction ls as [|l ls IH]; intros acc; simpl.
  - tauto.
  - rewrite IH, in_keys_put. intuition.
Qed.

Lemma getCount_countLetters (w : string) (c : Letter) :
  getCount (countLetters w) c = requiredCount w c.
Proof.
  unfold countLetters, requiredCount.
  rewrite getCount_fold_count. reflexivity.
Qed.

Lemma in_keys_countLetters (w : string) (c : Letter) :
  In c (keys (countLetters w)) <-> In c (chars (toUpperCase w)).
Proof.
  unfold countLetters. rewrite in_keys_fold_count. simpl. tauto.
Qed.

Lemma canBuildLoop_true (available needed : Counts) (ls : list Letter) :
  canBuildLoop available needed ls = true
  <-> (forall l n, In l ls -> get Ascii.eqb needed l = Some n ->
                   n <= getCount available l).
Proof.
  induction ls as [|l ls IH]; simpl.
  - split; [intros _ l n [] | reflexivity].
  - destruct (get Ascii.eqb needed l) as [n|] eqn:E.
    + destruct (Z.ltb_spec (getCount available l) n) as [Hlt|Hge].
      * split; [discriminate|]. intros H.
        specialize (H l n (or_introl eq_refl) E). lia.
      * rewrite IH. split.
        -- intros H x m [<-|Hx] Hm; [congruence | eauto].
        -- intros H x m Hx. apply H. now right.
    + rewrite IH. split.
      * intros H x m [<-|Hx] Hm; [congruence | eauto].
      * intros H x m Hx. apply H. now right.
Qed.

(** [canBuild] returns [true] exactly when no letter that occurs in the word
    is needed more often than the inventory has it. *)
Lemma canBuild_true (w : string) (inv : Counts) :
  canBuild w inv = true
  <-> (forall c, In c (chars (toUpperCase w)) ->
                 requiredCount w c <= getCount inv c).
Proof.
  unfold canBuild. rewrite canBuildLoop_true. split.
  - intros H c Hc. apply in_keys_countLetters in Hc.
    destruct (in_keys_get _ _ Hc) as [n Hn].
    specialize (H c n Hc Hn).
    rewrite <- getCount_countLetters. unfold getCount at 1. now rewrite Hn.
  - intros H l n Hl Hn. apply in_keys_countLetters in Hl.
    specialize (H l Hl). rewrite <- getCount_countLetters in H.
    unfold getCount at 1 in H. now rewrite Hn in H.
Qed.

Lemma requiredCount_pos_in (w : string) (c : Letter) :
  0 < requiredCount w c -> In c (chars (toUpperCase w)).
Proof.
  unfold requiredCount. intros H.
  apply (count_occ_In ascii_dec). lia.
Qed.

End CanBuildFacts.

(** C5. For every inventory [inv] (counts are never negative) and every word
    [w]: if [w] can be formed from the letters of [inv] with multiplicity,
    letter case ignored, [canBuild] accepts it, so [CannotBuild] is not
    reported; and if some letter is required more often than [inv] has it,
    [canBuild] rejects it. *)
Theorem canBuild_sound_and_complete (inv : Counts) (w : string) :
  validInventory inv ->
  (formable w inv -> canBuild w inv = true)
  /\ ((exists c, getCount inv c < requiredCount w c) -> canBuild w inv = false).
Proof.
  intros Hinv. split.
  - intros Hf. apply canBuild_true. intros c _. apply Hf.
  - intros [c Hc]. destruct (canBuild w inv) eqn:E; [|reflexivity].
    exfalso. rewrite canBuild_true in E.
    pose proof (getCount_nonneg inv c Hinv) as H0.
    assert (Hin : In c (chars (toUpperCase w)))
      by (apply requiredCount_pos_in; lia).
    specialize (E c Hin). lia.
Qed.

Lemma canBuild_sound_and_complete_witness :
  validInventory exampleInventory
  /\ (formable "Rattle" exampleInventory
      /\ canBuild "Rattle" exampleInventory = true)
  /\ ((exists c, getCount exampleInventory c < requiredCount "all" c)
      /\ canBuild "all" exampleInventory = false).
Proof.
  assert (Hv : validInventory exampleInventory).
  { vm_compute. repeat constructor; discriminate. }
  split; [exact Hv|]. split.
  - assert (Hf : formable "Rattle" exampleInventory).
    { intros c. destruct c as [[] [] [] [] [] [] [] []];
        vm_compute; discriminate. }
    split; [exact Hf|].
    exact (proj1 (canBuild_sound_and_complete exampleInventory "Rattle" Hv) Hf).
  - assert (He : exists c, getCount exampleInventory c < requiredCount "all" c).
    { exists "L"%char. vm_compute. reflexivity. }
    split; [exact He|].
    exact (proj2 (canBuild_sound_and_complete exampleInventory "all" Hv) He).
Defined.

(** ** validateWord *)

Lemma isValidWord_false (dict : Dictionary) (w : string) :
  isValidWord dict w = false <-> reportsAbsent dict w.
Proof.
  unfold isValidWord, reportsAbsent. destruct dict as [words|].
  - rewrite bool_decide_eq_false. reflexivity.
  - tauto.
Qed.

(** C4. Word validation checks length, then buildability, then the
    dictionary, and reports the first check that fails: [TooShort] exactly
    when the word has fewer than 3 characters; otherwise [CannotBuild] exactly
    when [canBuild] rejects the word; otherwise [NotInDictionary] exactly when
    the dictionary reports the lowercase-trimmed word absent; otherwise no
    error. *)
Theorem validateWord_first_failing_check
    (dict : Dictionary) (w : string) (inv : Counts) :
  (validateWord dict w inv = Some TooShort <-> strLength w < 3)
  /\ (3 <= strLength w ->
      (validateWord dict w inv = Some CannotBuild <-> canBuild w inv = false))
  /\ (3 <= strLength w -> canBuild w inv = true ->
      (validateWord dict w inv = Some NotInDictionary <-> reportsAbsent dict w))
  /\ (validateWord dict w inv = None
      <-> 3 <= strLength w /\ canBuild w inv = true /\ ~ reportsAbsent dict w).
Proof.
  rewrite <- isValidWord_false. unfold validateWord, MIN_WORD_LENGTH.
  destruct (Z.ltb_spec (strLength w) 3) as [Hlt|Hge];
    destruct (canBuild w inv); destruct (isValidWord dict w); simpl;
    repeat split; intros; try discriminate; try lia; try tauto;
    try (exfalso; intuition (discriminate || lia)).
Qed.

(** ** The letter pool *)

Section DrawFacts.

Lemma randomFloat_range (r : Rand) : 0 <= fst (randomFloat r) < UNIT.
Proof. unfold randomFloat, UNIT. simpl. apply Z.mod_pos_bound. lia. Qed.

Lemma UNIT_pos : 0 < UNIT.
Proof. unfold UNIT. lia. Qed.

(** A value in [[0, total)] always lands on a key of the pool. *)
Lemma pickLetter_lands (pool : Counts) (rand : Z) :
  0 <= rand < totalCount pool * UNIT ->
  exists l, pickLetter pool rand = Some l /\ In l (keys pool).
Proof.
  revert rand. induction pool as [|[l w] pool IH]; intros rand [H0 Hlt].
  - unfold totalCount in Hlt. simpl in Hlt. lia.
  - simpl. destruct (Z.leb_spec (rand - w * UNIT) 0) as [Hle|Hgt].
    + exists l. split; [reflexivity | now left].
    + destruct (IH (rand - w * UNIT)) as (l' & Hp & Hin).
      * unfold totalCount in *. simpl in Hlt. lia.
      * exists l'. split; [exact Hp | now right].
Qed.

Lemma in_keys_getCount_get (o : Counts) (k : Letter) :
  In k (keys o) -> get Ascii.eqb o k = Some (getCount o k).
Proof.
  intros H. destruct (in_keys_get o k H) as [v Hv].
  unfold getCount. now rewrite Hv.
Qed.

Lemma validInventory_put (o : Counts) (k : Letter) (v : Z) :
  validInventory o -> 0 <= v -> validInventory (putCount o k v).
Proof.
  unfold validInventory, putCount. intros Ho Hv.
  induction Ho as [|[k0 v0] o H0 Ho IH]; simpl.
  - repeat constructor. exact Hv.
  - destruct (Ascii.eqb k0 k); constructor; auto.
Qed.

Lemma countWhere_put (p : Letter -> bool) (o : Counts) (k : Letter) (v : Z) :
  countWhere p (putCount o k v)
  = countWhere p o + (if p k then v - getCount o k else 0).
Proof.
  unfold countWhere, putCount, getCount, totalCount.
  induction o as [|[k0 v0] o IH]; simpl.
  - destruct (p k); simpl; lia.
  - destruct (Ascii.eqb_spec k0 k) as [->|Hne]; simpl.
    + destruct (p k); simpl; lia.
    + destruct (p k0); simpl; rewrite IH; lia.
Qed.

Lemma countWhere_true (o : Counts) : countWhere (fun _ => true) o = totalCount o.
Proof.
  unfold countWhere. induction o as [|e o IH]; simpl; [reflexivity|].
  unfold totalCount in *. simpl. now rewrite IH.
Qed.

Lemma countWhere_all (p : Letter -> bool) (o : Counts) :
  (forall l, In l (keys o) -> p l = true) -> countWhere p o = totalCount o.
Proof.
  unfold countWhere, totalCount. induction o as [|[k v] o IH]; intros H; simpl.
  - reflexivity.
  - rewrite (H k (or_introl eq_refl)). simpl. rewrite IH; [reflexivity|].
    intros l Hl. apply H. now right.
Qed.

Lemma countWhere_none (p : Letter -> bool) (o : Counts) :
  (forall l, In l (keys o) -> p l = false) -> countWhere p o = 0.
Proof.
  unfold countWhere, totalCount. induction o as [|[k v] o IH]; intros H; simpl.
  - reflexivity.
  - rewrite (H k (or_introl eq_refl)). apply IH.
    intros l Hl. apply H. now right.
Qed.

(** What [n] rounds of the drawing loop do when the pool holds at least [n]
    tiles: they add exactly [n] tiles to the result, every new key is a key of
    the pool, and no count becomes negative. *)
Lemma drawLoop_spec (n : nat) :
  forall (pool result : Counts) (r : Rand),
    Z.of_nat n <= totalCount pool ->
    let out := fst (drawLoop n pool result r) in
    totalCount out = totalCount result + Z.of_nat n
    /\ (forall l, In l (keys out) -> In l (keys result) \/ In l (keys pool))
    /\ (validInventory result -> validInventory out).
Proof.
  induction n as [|n IH]; intros pool result r Hn; cbn zeta.
  - simpl. repeat split; auto; lia.
  - cbn [drawLoop]. destruct (Z.eqb_spec (totalCount pool) 0) as [H0|H0]; [lia|].
    pose proof (randomFloat_range r) as Hk.
    destruct (randomFloat r) as [k r'] eqn:Er. cbn [fst] in Hk.
    destruct (pickLetter_lands pool (k * totalCount pool)) as (l & Hp & Hin).
    { split; [nia|]. pose proof UNIT_pos. nia. }
    rewrite Hp.
    specialize (IH (putCount pool l (getCount pool l - 1))
                   (putCount result l (getCount result l + 1)) r').
    cbn zeta in IH. destruct IH as (Ht & Hkeys & Hvalid).
    { rewrite totalCount_put. lia. }
    split; [|split].
    + rewrite Ht, totalCount_put. lia.
    + intros x Hx. destruct (Hkeys x Hx) as [H|H].
      * apply in_keys_put in H. destruct H as [->|H]; auto.
      * apply in_keys_put in H. destruct H as [->|H]; auto.
    + intros Hv. apply Hvalid. apply validInventory_put; [exact Hv|].
      pose proof (getCount_nonneg result l Hv). lia.
Qed.

Lemma drawLetters_spec (pool : Counts) (n : nat) (r : Rand) :
  Z.of_nat n <= totalCount pool ->
  let out := fst (drawLetters pool n r) in
  totalCount out = Z.of_nat n
  /\ (forall l, In l (keys out) -> In l (keys pool))
  /\ validInventory out.
Proof.
  intros Hn. destruct (drawLoop_spec n pool [] r Hn) as (Ht & Hk & Hv).
  cbn zeta. unfold drawLetters. repeat split.
  - rewrite Ht. reflexivity.
  - intros l Hl. destruct (Hk l Hl) as [[]|H]; exact H.
  - apply Hv. constructor.
Qed.

Lemma mergeCounts_spec (p : Letter -> bool) (from into : Counts) :
  countWhere p (mergeCounts into from) = countWhere p into + countWhere p from.
Proof.
  unfold mergeCounts. revert into.
  induction from as [|[k v] from IH]; intros into; simpl.
  - unfold countWhere at 3. simpl. unfold totalCount. simpl. lia.
  - rewrite IH, countWhere_put. unfold countWhere at 4. simpl.
    destruct (p k); simpl; unfold countWhere, totalCount; simpl; lia.
Qed.

Lemma mergeCounts_valid (from into : Counts) :
  validInventory into -> validInventory from ->
  validInventory (mergeCounts into from).
Proof.
  unfold mergeCounts. revert into.
  induction from as [|[k v] from IH]; intros into Hi Hf; simpl; [exact Hi|].
  inversion Hf as [|e l He Hl]; subst. apply IH; [|exact Hl].
  apply validInventory_put; [exact Hi|].
  pose proof (getCount_nonneg into k Hi). simpl in *. lia.
Qed.

(** Whatever the random values are, the drawn inventory holds exactly 11
    tiles: 4 on vowel keys and 7 on consonant keys, and no negative count. *)
Lemma drawVowelsAndConsonants_sizes (r : Rand) :
  let d := fst (drawVowelsAndConsonants r) in
  totalCount (combined d) = 11
  /\ countWhere isVowel (combined d) = 4
  /\ countWhere isConsonant (combined d) = 7
  /\ validInventory (combined d).
Proof.
  unfold drawVowelsAndConsonants.
  pose proof (drawLetters_spec vowelPool 4 r) as Hv.
  destruct (drawLetters vowelPool 4 r) as [vs r1].
  pose proof (drawLetters_spec consonantPool 7 r1) as Hc.
  destruct (drawLetters consonantPool 7 r1) as [cs r2].
  cbn [fst combined] in *. cbn zeta in *.
  destruct Hv as (Hvt & Hvk & Hvv); [vm_compute; discriminate|].
  destruct Hc as (Hct & Hck & Hcv); [vm_compute; discriminate|].
  assert (Hvow : forall l, In l (keys vs) -> isVowel l = true).
  { intros l Hl. specialize (Hvk l Hl). vm_compute in Hvk.
    repeat (destruct Hvk as [<-|Hvk]; [reflexivity|]). destruct Hvk. }
  assert (Hcon : forall l, In l (keys cs) -> isVowel l = false).
  { intros l Hl. specialize (Hck l Hl). vm_compute in Hck.
    repeat (destruct Hck as [<-|Hck]; [reflexivity|]). destruct Hck. }
  repeat split.
  - rewrite <- countWhere_true, mergeCounts_spec, !countWhere_true. lia.
  - rewrite mergeCounts_spec, (countWhere_all isVowel vs Hvow).
    rewrite (countWhere_none isVowel cs Hcon). lia.
  - rewrite mergeCounts_spec.
    rewrite (countWhere_none isConsonant vs), (countWhere_all isConsonant cs).
    + lia.
    + intros l Hl. unfold isConsonant. now rewrite (Hcon l Hl).
    + intros l Hl. unfold isConsonant. now rewrite (Hvow l Hl).
  - now apply mergeCounts_valid.
Qed.

End DrawFacts.

(** C6, at the input where the code departs from the claim.  With every
    random value 0 the first draws take the two B tiles; the third draw then
    subtracts the weight 0 of B from 0 and takes B again, because the test is
    [rand <= 0].  The inventory holds three B tiles, one more than the
    frequency table has. *)
Theorem drawVowelsAndConsonants_exceeds_table :
  let d := fst (drawVowelsAndConsonants zeroRand) in
  combined d
  = [("A"%char, 4); ("B"%char, 3); ("C"%char, 2); ("D"%char, 2)]
  /\ getCount (combined d) "B"%char = 3
  /\ getCount SCRABBLE_COUNTS "B"%char = 2.
Proof. vm_compute. repeat split. Qed.

(** ** Strings *)

Section StringFacts.

Lemma isEmptyString_true (s : string) : isEmptyString s = true <-> s = "".
Proof. destruct s; simpl; split; congruence. Qed.

Lemma isEmptyString_trim (s : string) :
  isEmptyString (trim s) = true <-> blank s.
Proof. apply isEmptyString_true. Qed.

Lemma isEmptyString_trim_false (s : string) :
  isEmptyString (trim s) = false <-> ~ blank s.
Proof.
  rewrite <- isEmptyString_trim. destruct (isEmptyString (trim s)); split;
    congruence.
Qed.

Lemma lastChar_some (s : string) : s <> "" -> exists c, lastChar s = Some c.
Proof.
  induction s as [|c s IH]; intros H; [congruence|].
  destruct s as [|c' s]; simpl; [eauto|]. apply IH. discriminate.
Qed.

Lemma get_some (s : string) (n : nat) :
  (n < String.length s)%nat -> exists c, String.get n s = Some c.
Proof.
  revert n. induction s as [|c s IH]; intros n H; simpl in *; [lia|].
  destruct n as [|n]; [eauto|]. apply IH. lia.
Qed.

Lemma length_toLowerCase (s : string) :
  String.length (toLowerCase s) = String.length s.
Proof. induction s as [|c s IH]; simpl; congruence. Qed.

Lemma chars_toUpperCase (s : string) :
  chars (toUpperCase s) = map upperChar (chars s).
Proof. induction s as [|c s IH]; simpl; [reflexivity|]. now f_equal. Qed.

Lemma pickAt_in {A : Type} (xs : list A) (k : Z) :
  xs <> [] -> 0 <= k < UNIT -> exists x, pickAt xs k = Some x /\ In x xs.
Proof.
  intros Hne Hk. unfold pickAt.
  assert (Hlen : (0 < List.length xs)%nat) by (destruct xs; simpl; [congruence|lia]).
  destruct (nth_error xs (Z.to_nat (k * Z.of_nat (List.length xs) / UNIT)))
    as [x|] eqn:E.
  - exists x. split; [reflexivity|]. eapply nth_error_In; eauto.
  - apply nth_error_None in E. exfalso.
    pose proof UNIT_pos as Hu.
    assert (k * Z.of_nat (List.length xs) / UNIT < Z.of_nat (List.length xs)).
    { apply Z.div_lt_upper_bound; nia. }
    assert (0 <= k * Z.of_nat (List.length xs) / UNIT).
    { apply Z.div_pos; nia. }
    lia.
Qed.

End StringFacts.

(** ** Hint cards *)

Section CardFacts.

(** No card of the catalog throws on a word that is not empty. *)
Lemma effect_returns (card : HintCard) (w : string) (rv : RevealedInfo)
    (input : string) (r : Rand) :
  In card HINT_CARDS -> w <> "" ->
  exists rv' r', effect card w rv input r = Some (rv', r').
Proof.
  intros Hin Hw. unfold HINT_CARDS in Hin. simpl in Hin.
  destruct Hin as [<-|[<-|[<-|[<-|[<-|[<-|[<-|[<-|[]]]]]]]]]; simpl.
  - unfold lastLetterEffect. destruct (lastChar_some w Hw) as [c ->]. eauto.
  - unfold wordLengthEffect. eauto.
  - unfold vowelCountEffect. eauto.
  - unfold firstLetterEffect. destruct w; [congruence|eauto].
  - unfold containsLetterEffect. destruct (isEmptyString input); eauto.
  - unfold randomLetterEffect.
    destruct (List.filter _ (uniqueLetters _)) as [|a av]; [eauto|].
    destruct (randomFloat r) as [k r']. destruct (pickAt (a :: av) k); eauto.
  - unfold patternPeekEffect.
    destruct (List.filter _ (seq 0 (String.length w))) as [|a av] eqn:Ef;
      [eauto|].
    pose proof (randomFloat_range r) as Hk.
    destruct (randomFloat r) as [k r']. cbn [fst] in Hk.
    destruct (pickAt_in (a :: av) k ltac:(discriminate) Hk) as (idx & -> & Hidx).
    rewrite <- Ef in Hidx. apply filter_In in Hidx. destruct Hidx as [Hseq _].
    apply in_seq in Hseq.
    destruct (get_some w idx ltac:(lia)) as [c ->]. eauto.
  - unfold doubleTroubleEffect. eauto.
Qed.

Lemma cost_nonneg (card : HintCard) : In card HINT_CARDS -> 0 <= cost card.
Proof.
  unfold HINT_CARDS. simpl.
  intros [<-|[<-|[<-|[<-|[<-|[<-|[<-|[<-|[]]]]]]]]]; simpl; lia.
Qed.

End CardFacts.

(** ** playHintCard *)


(** ** submitGuess *)


(** A guess that the handler judges correct: it is not blank and its
    lowercased text, as typed, is the opponent's word.  The guesser's
    [guessSolved] becomes true, neither score changes, no wrong guess is
    logged, and the phase becomes ENDGAME when the opponent has solved too and
    the other player's pass phase otherwise. *)
Lemma submitGuess_judged_correct
    (g : GameState) (guess : string) (r : Rand) (opponentSecret : PlayerSecret) :
  secret (playerOf (negb (isP1 g)) g) = Some opponentSecret ->
  ~ blank guess ->
  toLowerCase guess = word opponentSecret ->
  let me := isP1 g in
  exists g',
    submitGuess g guess r = Done g' None r
    /\ guessSolved (public (playerOf me g')) = true
    /\ guessSolved (public (playerOf (negb me) g'))
       = guessSolved (public (playerOf (negb me) g))
    /\ score (public (p1 g')) = score (public (p1 g))
    /\ score (public (p2 g')) = score (public (p2 g))
    /\ wrongGuesses g' = wrongGuesses g
    /\ phase g'
       = (if guessSolved (public (playerOf (negb me) g)) then ENDGAME
          else if me then PASS_TO_GUESS_P2 else PASS_TO_GUESS_P1).
Proof.
  intros Hsec Hblank Hright me.
  apply isEmptyString_trim_false in Hblank.
  apply String.eqb_eq in Hright.
  unfold submitGuess. fold me. fold me in Hsec. rewrite Hblank, Hsec, Hright.
  eexists. split; [reflexivity|].
  destruct me; simpl; repeat split; reflexivity.
Qed.

(** ** Rejected actions *)

(** C9. An action that is rejected with a validation error sets no state:
    confirming a setup word that fails validation, playing a card that
    requires input with a blank input, submitting a blank guess, and starting
    the game while the dictionary is not ready each leave the game state, and
    the random source, exactly as they were and report the error. *)
Theorem rejected_actions_change_nothing :
  (forall dict g w r sec e,
      secret (if isSetupP1 g then p1 g else p2 g) = Some sec ->
      validateWord dict w (letters sec) = Some e ->
      confirmSetupWord dict g w r = Done g (Some e) r)
  /\ (forall g card input r,
         requiresInput card = true -> blank input ->
         stateAfter g (playHintCard g card input r) = g
         /\ (hasSecret (playerOf (negb (isP1 g)) g) ->
             playHintCard g card input r = Done g (Some MissingHintInput) r))
  /\ (forall g guess r,
         blank guess -> submitGuess g guess r = Done g (Some EmptyGuess) r)
  /\ (forall g r,
         dictionaryReady g = false ->
         startGame g r = Done g (Some DictionaryNotReady) r).
Proof.
  repeat split.
  - intros dict g w r sec e Hsec Hval. unfold confirmSetupWord.
    rewrite Hsec, Hval. reflexivity.
  - unfold playHintCard. apply isEmptyString_trim in H0.
    destruct (secret (playerOf (negb (isP1 g)) g)); [|reflexivity].
    rewrite H, H0. reflexivity.
  - intros [sec Hsec]. unfold playHintCard. apply isEmptyString_trim in H0.
    rewrite Hsec, H, H0. reflexivity.
  - intros g guess r Hb. unfold submitGuess. apply isEmptyString_trim in Hb.
    rewrite Hb. reflexivity.
  - intros g r Hd. unfold startGame. rewrite Hd. reflexivity.
Qed.

Lemma rejected_actions_change_nothing_witness :
  confirmSetupWord exampleDictionary
    (fst (run exampleDictionary initialState exampleRand
            [DictionaryLoaded; ClickStart])) "at" zeroRand
  = Done (fst (run exampleDictionary initialState exampleRand
                 [DictionaryLoaded; ClickStart])) (Some TooShort) zeroRand
  /\ playHintCard exampleGuessState containsLetterCard "  " zeroRand
     = Done exampleGuessState (Some MissingHintInput) zeroRand
  /\ submitGuess exampleGuessState "  " zeroRand
     = Done exampleGuessState (Some EmptyGuess) zeroRand
  /\ startGame initialState zeroRand
     = Done initialState (Some DictionaryNotReady) zeroRand.
Proof.
  destruct rejected_actions_change_nothing as (Hc & Hp & Hg & Hs).
  split; [|split; [|split]].
  - eapply Hc; vm_compute; reflexivity.
  - apply Hp; [reflexivity | reflexivity | eexists; reflexivity].
  - apply Hg. reflexivity.
  - apply Hs. reflexivity.
Defined.

(** ** The Random Letter card *)

Section RandomLetterFacts.

Lemma in_fold_unique (xs seen : list ascii) (x : ascii) :
  In x (fold_left
          (fun seen x => if existsb (Ascii.eqb x) seen then seen else seen ++ [x])
          xs seen)
  <-> In x seen \/ In x xs.
Proof.
  revert seen. induction xs as [|y xs IH]; intros seen; simpl.
  - tauto.
  - rewrite IH. destruct (existsb (Ascii.eqb y) seen) eqn:E.
    + apply existsb_exists in E. destruct E as (z & Hz & Hyz).
      apply Ascii.eqb_eq in Hyz. subst z. intuition (subst; auto).
    + rewrite in_app_iff. simpl. intuition.
Qed.

Lemma in_uniqueLetters (xs : list ascii) (x : ascii) :
  In x (uniqueLetters xs) <-> In x xs.
Proof. unfold uniqueLetters. rewrite in_fold_unique. simpl. tauto. Qed.

Lemma NoDup_snoc {A : Type} (xs : list A) (x : A) :
  List.NoDup xs -> ~ In x xs -> List.NoDup (xs ++ [x]).
Proof.
  induction 1 as [|y ys Hy Hys IH]; intros Hx; simpl.
  - constructor; [intros [] | constructor].
  - constructor.
    + rewrite in_app_iff. simpl. intros [H|[H|[]]]; [auto|].
      subst. apply Hx. now left.
    + apply IH. intros H. apply Hx. now right.
Qed.

Lemma NoDup_fold_unique (xs seen : list ascii) :
  List.NoDup seen ->
  List.NoDup (fold_left
           (fun seen x => if existsb (Ascii.eqb x) seen then seen else seen ++ [x])
           xs seen).
Proof.
  revert seen. induction xs as [|y xs IH]; intros seen Hs; simpl; [exact Hs|].
  apply IH. destruct (existsb (Ascii.eqb y) seen) eqn:E; [exact Hs|].
  apply NoDup_snoc; [exact Hs|]. intros Hy.
  assert (existsb (Ascii.eqb y) seen = true); [|congruence].
  apply existsb_exists. exists y. split; [exact Hy | apply Ascii.eqb_refl].
Qed.

Lemma existsb_eqb_in (x : ascii) (xs : list ascii) :
  existsb (Ascii.eqb x) xs = true <-> In x xs.
Proof.
  rewrite existsb_exists. split.
  - intros (y & Hy & E). apply Ascii.eqb_eq in E. now subst.
  - intros H. exists x. split; [exact H | apply Ascii.eqb_refl].
Qed.

Lemma filter_nil_all_false {A : Type} (f : A -> bool) (xs : list A) :
  (forall x, In x xs -> f x = false) -> List.filter f xs = [].
Proof.
  induction xs as [|x xs IH]; intros H; simpl; [reflexivity|].
  rewrite (H x (or_introl eq_refl)). apply IH. intros y Hy. apply H. now right.
Qed.

(** The card never writes a letter twice: if the known letters had no
    duplicate before, they have none after, whatever the random value. *)
Lemma randomLetterEffect_NoDup (w : string) (rv : RevealedInfo)
    (input : string) (r : Rand) (rv' : RevealedInfo) (r' : Rand) :
  randomLetterEffect w rv input r = Some (rv', r') ->
  List.NoDup (default [] (knownLetters rv)) ->
  List.NoDup (default [] (knownLetters rv')).
Proof.
  unfold randomLetterEffect. intros H Hnd.
  destruct (List.filter _ (uniqueLetters _)) as [|a av] eqn:Ef.
  - now inversion H; subst.
  - destruct (randomFloat r) as [k r0].
    destruct (pickAt (a :: av) k) as [l|] eqn:Ep.
    + inversion H; subst. simpl.
      assert (Hl : In l (a :: av)).
      { unfold pickAt in Ep. eapply nth_error_In; eauto. }
      rewrite <- Ef in Hl. apply filter_In in Hl. destruct Hl as [_ Hl].
      apply negb_true_iff in Hl.
      apply NoDup_snoc; [exact Hnd|]. intros Hz.
      apply existsb_eqb_in in Hz. congruence.
    + now inversion H; subst.
Qed.

End RandomLetterFacts.

(** C8. When the known letters of a revealed record already contain every
    letter of the secret word (uppercased), the Random Letter effect returns
    without error the record it was given, and reads no random value: the
    known letters gain no entry, and if they had no duplicate they have
    none. *)
Theorem randomLetterEffect_all_known
    (w : string) (rv : RevealedInfo) (input : string) (r : Rand) :
  allLettersKnown w rv ->
  effect randomLetterCard w rv input r = Some (rv, r)
  /\ (forall rv' r',
         effect randomLetterCard w rv input r = Some (rv', r') ->
         knownLetters rv' = knownLetters rv
         /\ (List.NoDup (default [] (knownLetters rv)) ->
             List.NoDup (default [] (knownLetters rv')))).
Proof.
  intros Hall.
  assert (Heq : randomLetterEffect w rv input r = Some (rv, r)).
  { unfold randomLetterEffect. rewrite filter_nil_all_false; [reflexivity|].
    intros l Hl. apply (proj1 (in_uniqueLetters _ _)) in Hl.
    rewrite <- chars_toUpperCase in Hl. apply Hall in Hl.
    apply negb_false_iff. now apply existsb_eqb_in. }
  split; [exact Heq|]. simpl. intros rv' r' H. rewrite Heq in H.
  inversion H; subst. auto.
Qed.

Lemma randomLetterEffect_all_known_witness :
  allLettersKnown "eel"
    (setKnownLetters noRevealed ["L"%char; "E"%char])
  /\ effect randomLetterCard "eel"
       (setKnownLetters noRevealed ["L"%char; "E"%char]) "" zeroRand
     = Some (setKnownLetters noRevealed ["L"%char; "E"%char], zeroRand).
Proof.
  assert (H : allLettersKnown "eel"
                (setKnownLetters noRevealed ["L"%char; "E"%char])).
  { intros c Hc. simpl in Hc. simpl. tauto. }
  split; [exact H|].
  exact (proj1 (randomLetterEffect_all_known "eel" _ "" zeroRand H)).
Defined.

(** ** Setting up the secrets *)

Section SetupFacts.

Lemma strLength_toLowerCase (s : string) :
  strLength (toLowerCase s) = strLength s.
Proof. unfold strLength. now rewrite length_toLowerCase. Qed.

Lemma validateWord_None_length (dict : Dictionary) (w : string) (inv : Counts) :
  validateWord dict w inv = None -> 3 <= strLength w.
Proof.
  unfold validateWord, MIN_WORD_LENGTH.
  destruct (Z.ltb_spec (strLength w) 3); [discriminate | auto].
Qed.

Lemma startGame_ready (g : GameState) (r : Rand) :
  dictionaryReady g = true ->
  startGame g r
  = Done (setP1 (setPhase g SETUP_P1)
            (mkPlayer
               (Some (mkSecret (combined (fst (drawVowelsAndConsonants r))) ""))
               freshPublic))
         None (snd (drawVowelsAndConsonants r)).
Proof.
  intros H. unfold startGame. rewrite H. cbn [negb].
  destruct (drawVowelsAndConsonants r) as [d r']. reflexivity.
Qed.

Lemma confirmSetupWord_first (dict : Dictionary) (g : GameState) (w : string)
    (r : Rand) (sec : PlayerSecret) :
  phase g = SETUP_P1 ->
  secret (p1 g) = Some sec ->
  validateWord dict w (letters sec) = None ->
  confirmSetupWord dict g w r
  = Done (setP2
            (setP1 (setPhase g SETUP_P2)
               (mkPlayer (Some (mkSecret (letters sec) (toLowerCase w)))
                  (public (p1 g))))
            (mkPlayer
               (Some (mkSecret (combined (fst (drawVowelsAndConsonants r))) ""))
               freshPublic))
         None (snd (drawVowelsAndConsonants r)).
Proof.
  intros Hph Hsec Hval. unfold confirmSetupWord, isSetupP1.
  rewrite Hph, Hsec, Hval.
  destruct (drawVowelsAndConsonants r) as [d r']. reflexivity.
Qed.

Lemma confirmSetupWord_second (dict : Dictionary) (g : GameState) (w : string)
    (r : Rand) (sec1 sec2 : PlayerSecret) :
  phase g <> SETUP_P1 ->
  secret (p1 g) = Some sec1 ->
  secret (p2 g) = Some sec2 ->
  validateWord dict w (letters sec2) = None ->
  confirmSetupWord dict g w r
  = Done (setSwap
            (setP2 (setPhase g PASS_TO_GUESS_P1)
               (mkPlayer (Some (mkSecret (letters sec2) (toLowerCase w)))
                  (public (p2 g))))
            (mkSwap (letters sec2) (letters sec1)))
         None r.
Proof.
  intros Hph Hs1 Hs2 Hval. unfold confirmSetupWord, isSetupP1.
  destruct (phase g); try congruence; rewrite Hs2, Hval, Hs1; reflexivity.
Qed.

End SetupFacts.

(** C10. Confirming a setup word takes no letter out of the inventory.  From
    any state in which the dictionary is ready: after the game has started
    and player 1 has confirmed a valid word, player 1's secret holds the
    inventory drawn at the start, unchanged; after player 2 has confirmed a
    valid word, both secrets hold the inventories as drawn, the swap record
    gives player 1 the whole inventory of player 2 and player 2 the whole
    inventory of player 1, and each of them holds 11 tiles. *)
Theorem confirmSetupWord_keeps_inventories
    (dict : Dictionary) (g0 : GameState) (w1 w2 : string) (r : Rand) :
  dictionaryReady g0 = true ->
  let d1 := fst (drawVowelsAndConsonants r) in
  let r1 := snd (drawVowelsAndConsonants r) in
  let d2 := fst (drawVowelsAndConsonants r1) in
  let r2 := snd (drawVowelsAndConsonants r1) in
  validateWord dict w1 (combined d1) = None ->
  validateWord dict w2 (combined d2) = None ->
  exists g1 g2 g3,
    startGame g0 r = Done g1 None r1
    /\ confirmSetupWord dict g1 w1 r1 = Done g2 None r2
    /\ confirmSetupWord dict g2 w2 r2 = Done g3 None r2
    /\ secret (p1 g1) = Some (mkSecret (combined d1) "")
    /\ secret (p1 g2) = Some (mkSecret (combined d1) (toLowerCase w1))
    /\ secret (p2 g2) = Some (mkSecret (combined d2) "")
    /\ secret (p1 g3) = Some (mkSecret (combined d1) (toLowerCase w1))
    /\ secret (p2 g3) = Some (mkSecret (combined d2) (toLowerCase w2))
    /\ swap g3 = Some (mkSwap (combined d2) (combined d1))
    /\ totalCount (combined d1) = 11
    /\ totalCount (combined d2) = 11
    /\ phase g3 = PASS_TO_GUESS_P1.
Proof.
  intros Hready d1 r1 d2 r2 Hv1 Hv2.
  pose proof (drawVowelsAndConsonants_sizes r) as (Ht1 & _).
  pose proof (drawVowelsAndConsonants_sizes r1) as (Ht2 & _).
  fold d1 in Ht1. fold d2 in Ht2.
  exists (setP1 (setPhase g0 SETUP_P1)
            (mkPlayer (Some (mkSecret (combined d1) "")) freshPublic)).
  eexists. eexists.
  split; [exact (startGame_ready g0 r Hready)|].
  split.
  { apply (confirmSetupWord_first dict _ w1 r1 (mkSecret (combined d1) ""));
      [reflexivity | reflexivity | exact Hv1]. }
  split.
  { apply (confirmSetupWord_second dict _ w2 r2
             (mkSecret (combined d1) (toLowerCase w1))
             (mkSecret (combined d2) ""));
      [discriminate | reflexivity | reflexivity | exact Hv2]. }
  repeat split; assumption.
Qed.

Lemma confirmSetupWord_keeps_inventories_witness :
  dictionaryReady (setDictionaryReady initialState true) = true
  /\ validateWord exampleDictionary "rattle"
       (combined (fst (drawVowelsAndConsonants exampleRand))) = None
  /\ validateWord exampleDictionary "stream"
       (combined (fst (drawVowelsAndConsonants
                         (snd (drawVowelsAndConsonants exampleRand))))) = None
  /\ exists g3,
       swap g3
       = Some (mkSwap
                 (combined (fst (drawVowelsAndConsonants
                                   (snd (drawVowelsAndConsonants exampleRand)))))
                 (combined (fst (drawVowelsAndConsonants exampleRand))))
       /\ phase g3 = PASS_TO_GUESS_P1.
Proof.
  assert (H0 : dictionaryReady (setDictionaryReady initialState true) = true)
    by reflexivity.
  assert (H1 : validateWord exampleDictionary "rattle"
                 (combined (fst (drawVowelsAndConsonants exampleRand))) = None)
    by (vm_compute; reflexivity).
  assert (H2 : validateWord exampleDictionary "stream"
                 (combined (fst (drawVowelsAndConsonants
                                   (snd (drawVowelsAndConsonants exampleRand)))))
               = None)
    by (vm_compute; reflexivity).
  repeat (split; [assumption|]).
  destruct (confirmSetupWord_keeps_inventories exampleDictionary
              (setDictionaryReady initialState true) "rattle" "stream"
              exampleRand H0 H1 H2)
    as (g1 & g2 & g3 & _ & _ & _ & _ & _ & _ & _ & _ & Hswap & _ & _ & Hph).
  exists g3. split; [exact Hswap | exact Hph].
Defined.

(** ** The state machine *)

Section MachineFacts.

#[local] Opaque drawVowelsAndConsonants validateWord.

(** Closes the conjuncts of [wellFormed] and [nothingLost] for a state that a
    handler has built: most are about another phase, the others follow from
    what held before. *)
Ltac close_side :=
  repeat split; intros; simpl in *;
  try discriminate; try (intuition discriminate);
  try lia; try assumption;
  try solve [eexists; reflexivity
            | eexists; split;
              [reflexivity | simpl; rewrite ?strLength_toLowerCase; assumption]
            | eauto ].

Ltac unchanged Hwf :=
  cbn [stateAfter]; split; [exact Hwf | unfold nothingLost; repeat split; auto; lia].

Lemma nothingLost_refl (g : GameState) : nothingLost g g.
Proof. unfold nothingLost. repeat split; auto; lia. Qed.

Lemma wellFormed_newGame (ready : bool) : wellFormed (newGame ready).
Proof. unfold wellFormed, freshSide. close_side. Qed.

Lemma wellFormed_initial : wellFormed initialState.
Proof. apply wellFormed_newGame. Qed.

Lemma startGame_step (g : GameState) (r : Rand) :
  phase g = START -> wellFormed g ->
  wellFormed (stateAfter g (startGame g r))
  /\ nothingLost g (stateAfter g (startGame g r)).
Proof.
  intros Hph Hwf. pose proof Hwf as (H1 & H2 & H3 & H4 & H5).
  unfold startGame.
  destruct (dictionaryReady g); cbn [negb]; [|unchanged Hwf].
  destruct (drawVowelsAndConsonants r) as [d r']. cbn [stateAfter].
  destruct (H1 Hph) as [Hs Hg]. destruct (H2 (or_introl Hph)) as [Hs2 Hg2].
  split.
  - unfold wellFormed, freshSide. close_side.
  - unfold nothingLost. simpl. rewrite Hs, Hg. close_side.
Qed.

Lemma confirmSetupWord_step (dict : Dictionary) (g : GameState) (w : string)
    (r : Rand) :
  phase g = SETUP_P1 \/ phase g = SETUP_P2 -> wellFormed g ->
  wellFormed (stateAfter g (confirmSetupWord dict g w r))
  /\ nothingLost g (stateAfter g (confirmSetupWord dict g w r)).
Proof.
  intros Hph Hwf. pose proof Hwf as (H1 & H2 & H3 & H4 & H5).
  unfold confirmSetupWord, isSetupP1.
  destruct Hph as [Hph|Hph]; rewrite Hph.
  - destruct (H3 Hph) as [sec Hsec]. rewrite Hsec.
    destruct (validateWord dict w (letters sec)) eqn:Hval; [unchanged Hwf|].
    apply validateWord_None_length in Hval.
    destruct (drawVowelsAndConsonants r) as [d r']. cbn [stateAfter].
    destruct (H2 (or_intror Hph)) as [Hs2 Hg2]. split.
    + unfold wellFormed, freshSide, confirmedSecret, hasSecret. close_side.
    + unfold nothingLost. simpl. rewrite Hs2, Hg2. close_side.
  - destruct (H4 Hph) as [(sec1 & Hsec1 & Hlen1) [sec2 Hsec2]]. rewrite Hsec2.
    destruct (validateWord dict w (letters sec2)) eqn:Hval; [unchanged Hwf|].
    apply validateWord_None_length in Hval.
    rewrite Hsec1. cbn [stateAfter]. split.
    + unfold wellFormed, freshSide, confirmedSecret, hasSecret. close_side.
    + unfold nothingLost. close_side.
Qed.

Lemma proceedToGuess_step (g : GameState) (r : Rand) :
  wellFormed g ->
  wellFormed (stateAfter g (proceedToGuess g r))
  /\ nothingLost g (stateAfter g (proceedToGuess g r)).
Proof.
  intros Hwf. pose proof Hwf as (H1 & H2 & H3 & H4 & H5).
  unfold proceedToGuess.
  destruct (phase g) eqn:Hph; try (unchanged Hwf); cbn [stateAfter].
  all: specialize (H5 eq_refl); destruct H5 as [Hc1 Hc2].
  all: split; [unfold wellFormed | unfold nothingLost]; close_side.
Qed.

Lemma playHintCard_step (g : GameState) (card : HintCard) (input : string)
    (r : Rand) :
  In card HINT_CARDS ->
  phase g = GUESS_P1 \/ phase g = GUESS_P2 -> wellFormed g ->
  wellFormed (stateAfter g (playHintCard g card input r))
  /\ nothingLost g (stateAfter g (playHintCard g card input r)).
Proof.
  intros Hcard Hph Hwf. pose proof Hwf as (H1 & H2 & H3 & H4 & H5).
  pose proof (cost_nonneg card Hcard) as Hcost. clear Hcard.
  assert (Hsec : confirmedSecret (p1 g) /\ confirmedSecret (p2 g)).
  { apply H5. destruct Hph as [-> | ->]; reflexivity. }
  destruct Hsec as [(s1 & Hs1 & Hl1) (s2 & Hs2 & Hl2)].
  unfold playHintCard, playerOf.
  destruct (isP1 g); cbn [negb]; rewrite ?Hs1, ?Hs2.
  all: destruct (requiresInput card && isEmptyString (trim input));
    [unchanged Hwf|].
  all: destruct (effect card _ _ input r) as [[nr r']|]; [|unchanged Hwf].
  all: cbn [stateAfter]; split;
    [unfold wellFormed, confirmedSecret | unfold nothingLost];
    simpl;
    destruct (guessSolved (public (p1 g))), (guessSolved (public (p2 g)));
    close_side.
Qed.

Lemma submitGuess_step (g : GameState) (guess : string) (r : Rand) :
  phase g = GUESS_P1 \/ phase g = GUESS_P2 -> wellFormed g ->
  wellFormed (stateAfter g (submitGuess g guess r))
  /\ nothingLost g (stateAfter g (submitGuess g guess r)).
Proof.
  intros Hph Hwf. pose proof Hwf as (H1 & H2 & H3 & H4 & H5).
  assert (Hsec : confirmedSecret (p1 g) /\ confirmedSecret (p2 g)).
  { apply H5. destruct Hph as [-> | ->]; reflexivity. }
  destruct Hsec as [(s1 & Hs1 & Hl1) (s2 & Hs2 & Hl2)].
  unfold submitGuess, WRONG_GUESS_PENALTY, playerOf.
  destruct (isEmptyString (trim guess)); [unchanged Hwf|].
  destruct (isP1 g); cbn [negb]; rewrite ?Hs1, ?Hs2.
  all: match goal with
       | |- context [String.eqb ?a ?b] => destruct (String.eqb a b)
       end.
  all: cbn [stateAfter]; split;
    [unfold wellFormed, confirmedSecret | unfold nothingLost];
    simpl;
    destruct (guessSolved (public (p1 g))), (guessSolved (public (p2 g)));
    close_side.
Qed.

(** Every offered action keeps a well-formed state well-formed, and every
    offered action but the reset loses nothing. *)
Lemma dispatch_step (dict : Dictionary) (g : GameState) (a : Action) (r : Rand) :
  offered a -> wellFormed g ->
  wellFormed (stateAfter g (dispatch dict g a r))
  /\ (isReset a = false -> nothingLost g (stateAfter g (dispatch dict g a r))).
Proof.
  intros Hoff Hwf.
  assert (Hsame : wellFormed g /\ (isReset a = false -> nothingLost g g)).
  { split; [exact Hwf | intros _; apply nothingLost_refl]. }
  destruct a; unfold dispatch; destruct (phase g) eqn:Hph;
    try exact Hsame; simpl in Hoff.
  all: try (destruct (startGame_step g r Hph Hwf); solve [auto]).
  all: try (destruct (confirmSetupWord_step dict g setupWord r
                        (or_introl Hph) Hwf); solve [auto]).
  all: try (destruct (confirmSetupWord_step dict g setupWord r
                        (or_intror Hph) Hwf); solve [auto]).
  all: try (destruct (proceedToGuess_step g r Hwf); solve [auto]).
  all: try (destruct (playHintCard_step g card cardInput r Hoff
                        (or_introl Hph) Hwf); solve [auto]).
  all: try (destruct (playHintCard_step g card cardInput r Hoff
                        (or_intror Hph) Hwf); solve [auto]).
  all: try (destruct (submitGuess_step g guessWord r (or_introl Hph) Hwf);
            solve [auto]).
  all: try (destruct (submitGuess_step g guessWord r (or_intror Hph) Hwf);
            solve [auto]).
  all: try (split; [apply wellFormed_newGame | discriminate]).
  all: unfold dictionaryLoaded; cbn [stateAfter];
    destruct Hwf as (H1 & H2 & H3 & H4 & H5);
    split; [unfold wellFormed | intros _; unfold nothingLost];
    simpl; rewrite ?Hph; close_side.
Qed.

#[local] Transparent drawVowelsAndConsonants validateWord.

End MachineFacts.

Section ReachableFacts.

Lemma reachable_wellFormed (g : GameState) : reachable g -> wellFormed g.
Proof.
  induction 1 as [|g dict a r Hg IH Hoff].
  - apply wellFormed_initial.
  - apply dispatch_step; assumption.
Qed.

Lemma reachable_run (dict : Dictionary) (actions : list Action) :
  forall (g : GameState) (r : Rand),
    reachable g -> Forall offered actions ->
    reachable (fst (run dict g r actions)).
Proof.
  induction actions as [|a actions IH]; intros g r Hg Hoff; simpl.
  - exact Hg.
  - inversion Hoff as [|x l Ha Hl]; subst.
    apply IH; [|exact Hl]. now apply reachable_step.
Qed.

Lemma exampleGuessState_reachable : reachable exampleGuessState.
Proof.
  assert (E : exampleGuessState
              = fst (run exampleDictionary initialState exampleRand
                       exampleActions))
    by (vm_compute; reflexivity).
  rewrite E. apply reachable_run; [apply reachable_initial|].
  unfold exampleActions. repeat constructor.
Qed.

Lemma confirmedSecret_wordSet (p : Player) :
  confirmedSecret p -> secretWordSet p.
Proof.
  intros (sec & Hsec & Hlen). exists sec. split; [exact Hsec|].
  intros E. rewrite E in Hlen. unfold strLength in Hlen. simpl in Hlen. lia.
Qed.


End ReachableFacts.

(** ** Playing a hint card *)



(** C7. In every state the component can be in, whatever action of the state
    machine is taken other than the reset (start, confirm a setup word,
    proceed, play a hint card, submit a guess, or the dictionary finishing
    its load), neither player's score is lower afterwards and no
    [guessSolved] flag goes from true back to false. *)
Theorem scores_and_solved_flags_never_go_back
    (dict : Dictionary) (g : GameState) (a : Action) (r : Rand) :
  reachable g -> offered a -> isReset a = false ->
  let g' := stateAfter g (dispatch dict g a r) in
  score (public (p1 g)) <= score (public (p1 g'))
  /\ score (public (p2 g)) <= score (public (p2 g'))
  /\ (guessSolved (public (p1 g)) = true -> guessSolved (public (p1 g')) = true)
  /\ (guessSolved (public (p2 g)) = true -> guessSolved (public (p2 g')) = true).
Proof.
  intros Hr Hoff Hreset g'.
  exact (proj2 (dispatch_step dict g a r Hoff (reachable_wellFormed g Hr))
           Hreset).
Qed.

Lemma scores_and_solved_flags_never_go_back_witness :
  reachable exampleGuessState
  /\ offered (ClickUseCard wordLengthCard "")
  /\ isReset (ClickUseCard wordLengthCard "") = false
  /\ score (public (p2 exampleGuessState))
     <= score (public (p2 (stateAfter exampleGuessState
                             (dispatch exampleDictionary exampleGuessState
                                (ClickUseCard wordLengthCard "") zeroRand)))).
Proof.
  assert (H1 : reachable exampleGuessState) by apply exampleGuessState_reachable.
  assert (H2 : offered (ClickUseCard wordLengthCard "")) by (simpl; tauto).
  assert (H3 : isReset (ClickUseCard wordLengthCard "") = false) by reflexivity.
  repeat (split; [assumption|]).
  exact (proj1 (proj2 (scores_and_solved_flags_never_go_back exampleDictionary
                         exampleGuessState (ClickUseCard wordLengthCard "")
                         zeroRand H1 H2 H3))).
Defined.

(** ** Letter case *)

Section CaseFacts.

Lemma upperChar_lowerChar (c : ascii) : upperChar (lowerChar c) = upperChar c.
Proof. destruct c as [[] [] [] [] [] [] [] []]; reflexivity. Qed.

Lemma lowerChar_upperChar (c : ascii) : lowerChar (upperChar c) = lowerChar c.
Proof. destruct c as [[] [] [] [] [] [] [] []]; reflexivity. Qed.

Lemma toUpperCase_toLowerCase (s : string) :
  toUpperCase (toLowerCase s) = toUpperCase s.
Proof.
  induction s as [|c s IH]; simpl; [reflexivity|].
  now rewrite IH, upperChar_lowerChar.
Qed.

Lemma toLowerCase_toUpperCase (s : string) :
  toLowerCase (toUpperCase s) = toLowerCase s.
Proof.
  induction s as [|c s IH]; simpl; [reflexivity|].
  now rewrite IH, lowerChar_upperChar.
Qed.

Lemma toUpperCase_idem (s : string) :
  toUpperCase (toUpperCase s) = toUpperCase s.
Proof.
  induction s as [|c s IH]; simpl; [reflexivity|]. rewrite IH. f_equal.
  destruct c as [[] [] [] [] [] [] [] []]; reflexivity.
Qed.

Lemma length_toUpperCase (s : string) :
  String.length (toUpperCase s) = String.length s.
Proof. induction s as [|c s IH]; simpl; congruence. Qed.

Lemma countLetters_same_upper (w w' : string) :
  toUpperCase w = toUpperCase w' -> countLetters w = countLetters w'.
Proof. unfold countLetters. now intros ->. Qed.

Lemma canBuild_same_upper (w w' : string) (inv : Counts) :
  toUpperCase w = toUpperCase w' -> canBuild w inv = canBuild w' inv.
Proof.
  intros H. unfold canBuild. now rewrite (countLetters_same_upper w w' H).
Qed.

Lemma validateWord_None_canBuild (dict : Dictionary) (w : string) (inv : Counts) :
  validateWord dict w inv = None -> canBuild w inv = true.
Proof.
  unfold validateWord. destruct (strLength w <? MIN_WORD_LENGTH); [discriminate|].
  destruct (canBuild w inv); [reflexivity | discriminate].
Qed.

End CaseFacts.

(** ** The ledger and the setup invariant *)

Section SettledFacts.

Lemma in_keys_mergeCounts_early (from into : Counts) (l : Letter) :
  In l (keys (mergeCounts into from)) -> In l (keys into) \/ In l (keys from).
Proof.
  unfold mergeCounts. revert into.
  induction from as [|[k v] from IH]; intros into; simpl.
  - tauto.
  - intros H. apply IH in H. rewrite in_keys_put in H. intuition.
Qed.

Lemma drawn_keys (r : Rand) :
  incl (keys (combined (fst (drawVowelsAndConsonants r))))
       (keys SCRABBLE_COUNTS).
Proof.
  unfold drawVowelsAndConsonants.
  pose proof (drawLetters_spec vowelPool 4 r) as Hv.
  destruct (drawLetters vowelPool 4 r) as [vs r1].
  pose proof (drawLetters_spec consonantPool 7 r1) as Hc.
  destruct (drawLetters consonantPool 7 r1) as [cs r2].
  cbn [fst combined] in *. cbn zeta in *.
  destruct Hv as (_ & Hvk & _); [vm_compute; discriminate|].
  destruct Hc as (_ & Hck & _); [vm_compute; discriminate|].
  intros l Hl. apply in_keys_mergeCounts_early in Hl. destruct Hl as [Hl|Hl].
  - apply Hvk in Hl. vm_compute in Hl.
    repeat (destruct Hl as [<-|Hl]; [apply existsb_eqb_in; reflexivity|]).
    destruct Hl.
  - apply Hck in Hl. vm_compute in Hl.
    repeat (destruct Hl as [<-|Hl]; [apply existsb_eqb_in; reflexivity|]).
    destruct Hl.
Qed.

#[local] Opaque drawVowelsAndConsonants validateWord canBuild.

Lemma hintsChargedBy_snoc (label : string) (log : list HintLogEntry)
    (e : HintLogEntry) :
  hintsChargedBy label (log ++ [e])
  = hintsChargedBy label log
    + (if String.eqb (hintPlayer e) label then hintCost e else 0).
Proof.
  unfold hintsChargedBy. induction log as [|x log IH]; simpl.
  - destruct (String.eqb (hintPlayer e) label); lia.
  - rewrite IH. destruct (String.eqb (hintPlayer x) label); lia.
Qed.

Lemma penaltiesChargedBy_snoc (label : string) (log : list WrongGuess)
    (e : WrongGuess) :
  penaltiesChargedBy label (log ++ [e])
  = penaltiesChargedBy label log
    + (if String.eqb (wrongPlayer e) label then wrongPenalty e else 0).
Proof.
  unfold penaltiesChargedBy. induction log as [|x log IH]; simpl.
  - destruct (String.eqb (wrongPlayer e) label); lia.
  - rewrite IH. destruct (String.eqb (wrongPlayer x) label); lia.
Qed.

Lemma settled_newGame (ready : bool) : settled (newGame ready).
Proof.
  unfold settled, fullInventory, bothSolved, chargedBy. simpl.
  repeat split; intros; try discriminate.
Qed.

Lemma drawn_fullInventory (r : Rand) :
  totalCount (combined (fst (drawVowelsAndConsonants r))) = 11
  /\ validInventory (combined (fst (drawVowelsAndConsonants r)))
  /\ incl (keys (combined (fst (drawVowelsAndConsonants r))))
          (keys SCRABBLE_COUNTS).
Proof.
  destruct (drawVowelsAndConsonants_sizes r) as (Ht & _ & _ & Hv).
  pose proof (drawn_keys r). auto.
Qed.

(** Closes the conjuncts of [settled] for a state that a handler has built. *)
Ltac close_settled :=
  repeat split; intros; try discriminate; try assumption; try lia;
  try reflexivity;
  try solve [eexists; split; [reflexivity | simpl; assumption]].

Lemma settled_startGame (g : GameState) (r : Rand) :
  phase g = START -> wellFormed g -> settled g ->
  settled (stateAfter g (startGame g r)).
Proof.
  intros Hph Hwf Hst. pose proof Hst as (Ha & Hb & Hc & Hd & He & Hf & Hg).
  destruct Hwf as (W1 & W2 & _). destruct (W1 Hph) as [Hs1 Hg1].
  unfold startGame. destruct (dictionaryReady g); cbn [negb stateAfter];
    [|exact Hst].
  pose proof (drawn_fullInventory r) as (Ht & Hv & Hkeys).
  destruct (drawVowelsAndConsonants r) as [d r']. cbn [stateAfter fst] in *.
  unfold settled, bothSolved, chargedBy, fullInventory in *. simpl.
  close_settled.
Qed.

Lemma settled_confirmSetupWord (dict : Dictionary) (g : GameState) (w : string)
    (r : Rand) :
  phase g = SETUP_P1 \/ phase g = SETUP_P2 -> wellFormed g -> settled g ->
  settled (stateAfter g (confirmSetupWord dict g w r)).
Proof.
  intros Hph Hwf Hst. pose proof Hst as (Ha & Hb & Hc & Hd & He & Hf & Hg).
  destruct Hwf as (W1 & W2 & W3 & W4 & W5).
  unfold confirmSetupWord, isSetupP1.
  destruct Hph as [Hph|Hph]; rewrite Hph.
  - destruct (W3 Hph) as [sec Hsec]. rewrite Hsec.
    destruct (validateWord dict w (letters sec)) eqn:Hval;
      [exact Hst|].
    apply validateWord_None_canBuild in Hval.
    rewrite <- (canBuild_same_upper (toLowerCase w) w) in Hval
      by apply toUpperCase_toLowerCase.
    destruct (W2 (or_intror Hph)) as [Hs2 Hg2].
    pose proof (drawn_fullInventory r) as (Ht & Hv & Hkeys).
    destruct (drawVowelsAndConsonants r) as [d r']. cbn [stateAfter fst] in *.
    unfold settled, bothSolved, chargedBy, fullInventory in *.
    rewrite Hsec in Hd. destruct Hd as (Hd1 & Hd2 & Hd3). simpl.
    rewrite andb_false_r. close_settled.
  - destruct (W4 Hph) as [(sec1 & Hsec1 & Hlen1) [sec2 Hsec2]]. rewrite Hsec2.
    destruct (validateWord dict w (letters sec2)) eqn:Hval;
      [exact Hst|].
    apply validateWord_None_canBuild in Hval.
    rewrite <- (canBuild_same_upper (toLowerCase w) w) in Hval
      by apply toUpperCase_toLowerCase.
    rewrite Hsec1. cbn [stateAfter].
    destruct (Hf Hph) as (s1 & Hs1 & Hcb1).
    assert (s1 = sec1) by congruence. subst s1.
    assert (Hboth : bothSolved g = false).
    { apply not_true_is_false. intros E. apply Ha in E. congruence. }
    unfold settled, bothSolved, chargedBy, fullInventory in *.
    rewrite Hsec2 in He. destruct He as (He1 & He2 & He3). simpl.
    rewrite Hboth. close_settled.
    exists sec1. eexists. repeat split; try eassumption; simpl; assumption.
Qed.

Lemma settled_proceedToGuess (g : GameState) (r : Rand) :
  settled g -> settled (stateAfter g (proceedToGuess g r)).
Proof.
  intros Hst. pose proof Hst as (Ha & Hb & Hc & Hd & He & Hf & Hg).
  unfold proceedToGuess.
  destruct (phase g) eqn:Hph; cbn [stateAfter]; try exact Hst.
  all: assert (Hboth : bothSolved g = false)
    by (apply not_true_is_false; intros E; apply Ha in E; discriminate).
  all: specialize (Hg eq_refl).
  all: unfold settled, bothSolved, chargedBy in *; simpl; rewrite Hboth;
    close_settled.
Qed.

Lemma settled_playHintCard (g : GameState) (card : HintCard) (input : string)
    (r : Rand) :
  phase g = GUESS_P1 \/ phase g = GUESS_P2 -> settled g ->
  settled (stateAfter g (playHintCard g card input r))
  /\ phase (stateAfter g (playHintCard g card input r)) <> ENDGAME.
Proof.
  intros Hph Hst. pose proof Hst as (Ha & Hb & Hc & Hd & He & Hf & Hg).
  assert (Hne : phase g <> ENDGAME) by (destruct Hph as [-> | ->]; discriminate).
  assert (Hboth : bothSolved g = false).
  { apply not_true_is_false. intros E. apply Ha in E. contradiction. }
  destruct Hg as (s1 & s2 & Hs1 & Hs2 & Hsw & Hc1 & Hc2);
    [destruct Hph as [-> | ->]; reflexivity|].
  assert (Hme : isP1 g = true /\ phase g = GUESS_P1
                \/ isP1 g = false /\ phase g = GUESS_P2).
  { unfold isP1. destruct Hph as [-> | ->]; auto. }
  unfold playHintCard, playerOf.
  destruct Hme as [[-> Hp]|[-> Hp]]; cbn [negb]; rewrite ?Hs1, ?Hs2.
  all: destruct (requiresInput card && isEmptyString (trim input));
    [cbn [stateAfter]; split; [exact Hst | exact Hne]|].
  all: destruct (effect card _ _ input r) as [[nr r']|];
    [|cbn [stateAfter]; split; [exact Hst | exact Hne]].
  all: cbn [stateAfter]; unfold settled, bothSolved, chargedBy, fullInventory in *;
    rewrite ?Hs1, ?Hs2 in *; simpl;
    rewrite !hintsChargedBy_snoc; simpl.
  all: destruct Hd as (? & ? & ?), He as (? & ? & ?).
  all: destruct (guessSolved (public (p1 g))), (guessSolved (public (p2 g)));
    simpl in *; try discriminate.
  all: close_settled.
  all: try (exists s1, s2; repeat split; assumption).
Qed.

Lemma settled_submitGuess (g : GameState) (guess : string) (r : Rand) :
  phase g = GUESS_P1 \/ phase g = GUESS_P2 -> settled g ->
  settled (stateAfter g (submitGuess g guess r)).
Proof.
  intros Hph Hst. pose proof Hst as (Ha & Hb & Hc & Hd & He & Hf & Hg).
  assert (Hne : phase g <> ENDGAME) by (destruct Hph as [-> | ->]; discriminate).
  assert (Hboth : bothSolved g = false).
  { apply not_true_is_false. intros E. apply Ha in E. contradiction. }
  destruct Hg as (s1 & s2 & Hs1 & Hs2 & Hsw & Hc1 & Hc2);
    [destruct Hph as [-> | ->]; reflexivity|].
  assert (Hme : isP1 g = true /\ phase g = GUESS_P1
                \/ isP1 g = false /\ phase g = GUESS_P2).
  { unfold isP1. destruct Hph as [-> | ->]; auto. }
  unfold submitGuess, playerOf, WRONG_GUESS_PENALTY.
  destruct (isEmptyString (trim guess)); [exact Hst|].
  destruct Hme as [[-> Hp]|[-> Hp]]; cbn [negb]; rewrite ?Hs1, ?Hs2.
  all: match goal with
       | |- context [String.eqb ?a ?b] => destruct (String.eqb a b)
       end.
  all: cbn [stateAfter]; unfold settled, bothSolved, chargedBy, fullInventory in *;
    rewrite ?Hs1, ?Hs2 in *; simpl; rewrite ?Hs1, ?Hs2;
    rewrite ?penaltiesChargedBy_snoc; simpl.
  all: destruct Hd as (? & ? & ?), He as (? & ? & ?).
  all: destruct (guessSolved (public (p1 g))), (guessSolved (public (p2 g)));
    simpl in *; try discriminate.
  all: close_settled.
  all: try (exists s1, s2; repeat split; assumption).
Qed.

Lemma settled_dispatch (dict : Dictionary) (g : GameState) (a : Action)
    (r : Rand) :
  wellFormed g -> settled g -> settled (stateAfter g (dispatch dict g a r)).
Proof.
  intros Hwf Hst.
  destruct a; unfold dispatch; destruct (phase g) eqn:Hph; try exact Hst.
  all: try (apply settled_startGame; assumption).
  all: try (apply settled_confirmSetupWord; auto; fail).
  all: try (apply settled_proceedToGuess; assumption).
  all: try (apply settled_playHintCard; auto; fail).
  all: try (apply settled_submitGuess; auto; fail).
  all: try apply settled_newGame.
  all: unfold dictionaryLoaded; cbn [stateAfter];
    unfold settled, bothSolved, chargedBy, fullInventory in *; simpl;
    rewrite Hph in *; exact Hst.
Qed.

Lemma reachable_settled (g : GameState) : reachable g -> settled g.
Proof.
  induction 1 as [|g dict a r Hg IH Hoff].
  - apply settled_newGame.
  - apply settled_dispatch; [now apply reachable_wellFormed | exact IH].
Qed.

#[local] Transparent drawVowelsAndConsonants validateWord canBuild.

End SettledFacts.

(** ** What every step of the machine does *)

Section StepFacts.

#[local] Opaque drawVowelsAndConsonants validateWord canBuild.

(** Splits a goal about [stateAfter g (dispatch ...)] into the cases of the
    handler that runs in the phase [Hph] names. *)
Ltac handler_cases Hph :=
  unfold startGame, confirmSetupWord, proceedToGuess, playHintCard,
    submitGuess, resetGame, dictionaryLoaded, isSetupP1, isP1, playerOf;
  rewrite ?Hph; cbn [negb];
  repeat (match goal with
          | |- context [match ?x with _ => _ end] => destruct x eqn:?
          end);
  cbn [stateAfter]; simpl.

(** X1. Whatever the state and the action, the phase after the action is the
    phase before it or the target of an arrow of the phase diagram: START to
    SETUP_P1 to SETUP_P2 to PASS_TO_GUESS_P1, each PASS phase to its GUESS
    phase, each GUESS phase to the other player's PASS phase or to ENDGAME,
    and ENDGAME to START. *)
Theorem phase_follows_the_diagram (dict : Dictionary) (g : GameState) (a : Action) (r : Rand) :
  phase (stateAfter g (dispatch dict g a r)) = phase g
  \/ phaseEdge (phase g) (phase (stateAfter g (dispatch dict g a r))) = true.
Proof.
  destruct a; unfold dispatch; destruct (phase g) eqn:Hph;
    handler_cases Hph; rewrite ?Hph; auto.
Qed.

(** X2. Once both setups are over (a PASS, GUESS or ENDGAME phase), no
    action but the reset changes a player's secret (inventory and word) or
    the swap record. *)
Theorem secrets_and_swap_frozen_after_setup (dict : Dictionary) (g : GameState) (a : Action)
    (r : Rand) :
  afterSetup (phase g) = true -> isReset a = false ->
  secret (p1 (stateAfter g (dispatch dict g a r))) = secret (p1 g)
  /\ secret (p2 (stateAfter g (dispatch dict g a r))) = secret (p2 g)
  /\ swap (stateAfter g (dispatch dict g a r)) = swap g.
Proof.
  intros Hafter Hreset.
  destruct a; try discriminate; unfold dispatch; destruct (phase g) eqn:Hph;
    try discriminate; handler_cases Hph; auto.
Qed.

(** X3. The two logs are append-only: after any action but the reset, the
    hint log and the wrong-guess log begin with what they held before. *)
Theorem logs_are_append_only (dict : Dictionary) (g : GameState) (a : Action)
    (r : Rand) :
  isReset a = false ->
  beginsWith (hintLog (stateAfter g (dispatch dict g a r))) (hintLog g)
  /\ beginsWith (wrongGuesses (stateAfter g (dispatch dict g a r)))
       (wrongGuesses g).
Proof.
  intros Hreset. unfold beginsWith.
  destruct a; try discriminate; unfold dispatch; destruct (phase g) eqn:Hph;
    handler_cases Hph; split;
    first [ now (exists []; rewrite app_nil_r) | now eexists ].
Qed.

Lemma secrets_and_swap_frozen_after_setup_witness :
  afterSetup (phase exampleGuessState) = true
  /\ isReset (SubmitGuess "grave") = false
  /\ secret (p2 (stateAfter exampleGuessState
                   (dispatch exampleDictionary exampleGuessState
                      (SubmitGuess "grave") zeroRand)))
     = secret (p2 exampleGuessState).
Proof.
  assert (H1 : afterSetup (phase exampleGuessState) = true) by reflexivity.
  assert (H2 : isReset (SubmitGuess "grave") = false) by reflexivity.
  repeat (split; [assumption|]).
  exact (proj1 (proj2 (secrets_and_swap_frozen_after_setup exampleDictionary
                         exampleGuessState (SubmitGuess "grave") zeroRand
                         H1 H2))).
Defined.

Lemma logs_are_append_only_witness :
  isReset (SubmitGuess "grave") = false
  /\ beginsWith
       (wrongGuesses (stateAfter exampleGuessState
                        (dispatch exampleDictionary exampleGuessState
                           (SubmitGuess "grave") zeroRand)))
       (wrongGuesses exampleGuessState).
Proof.
  assert (H : isReset (SubmitGuess "grave") = false) by reflexivity.
  split; [exact H|].
  exact (proj2 (logs_are_append_only exampleDictionary exampleGuessState
                  (SubmitGuess "grave") zeroRand H)).
Defined.

#[local] Transparent drawVowelsAndConsonants validateWord canBuild.

End StepFacts.

(** ** What holds in every reachable state *)



(** X5. In every guessing state the component can be in, playing a hint card
    never ends the game: whatever the card and the input, the phase after
    [playHintCard] is not ENDGAME.  The both-solved branch of the handler is
    never taken. *)
Theorem hint_card_never_ends_the_game
    (g : GameState) (card : HintCard) (input : string) (r : Rand) :
  reachable g -> guessPhase g ->
  phase (stateAfter g (playHintCard g card input r)) <> ENDGAME.
Proof.
  intros Hr Hph.
  exact (proj2 (settled_playHintCard g card input r Hph (reachable_settled g Hr))).
Qed.

Lemma hint_card_never_ends_the_game_witness :
  reachable exampleGuessState
  /\ guessPhase exampleGuessState
  /\ phase (stateAfter exampleGuessState
              (playHintCard exampleGuessState wordLengthCard "" zeroRand))
     <> ENDGAME.
Proof.
  assert (H1 : reachable exampleGuessState) by apply exampleGuessState_reachable.
  assert (H2 : guessPhase exampleGuessState) by (left; reflexivity).
  repeat (split; [assumption|]).
  exact (hint_card_never_ends_the_game exampleGuessState wordLengthCard ""
           zeroRand H1 H2).
Defined.

(** X6. In every state the component can be in, the scores are exactly what
    the two logs record: player 1's score is the sum of the costs of the
    hints played by Player 2 plus the penalties of Player 2's wrong guesses,
    and player 2's score is the same sum over Player 1's entries. *)
Theorem scores_are_what_the_logs_charge (g : GameState) :
  reachable g ->
  score (public (p1 g))
  = hintsChargedBy "Player 2" (hintLog g)
    + penaltiesChargedBy "Player 2" (wrongGuesses g)
  /\ score (public (p2 g))
     = hintsChargedBy "Player 1" (hintLog g)
       + penaltiesChargedBy "Player 1" (wrongGuesses g).
Proof.
  intros Hr. destruct (reachable_settled g Hr) as (_ & Hb & Hc & _).
  split; assumption.
Qed.

Lemma scores_are_what_the_logs_charge_witness :
  reachable (stateAfter exampleGuessState
               (dispatch exampleDictionary exampleGuessState
                  (SubmitGuess "grave") zeroRand))
  /\ score (public (p2 (stateAfter exampleGuessState
                          (dispatch exampleDictionary exampleGuessState
                             (SubmitGuess "grave") zeroRand))))
     = hintsChargedBy "Player 1"
         (hintLog (stateAfter exampleGuessState
                     (dispatch exampleDictionary exampleGuessState
                        (SubmitGuess "grave") zeroRand)))
       + penaltiesChargedBy "Player 1"
           (wrongGuesses (stateAfter exampleGuessState
                            (dispatch exampleDictionary exampleGuessState
                               (SubmitGuess "grave") zeroRand))).
Proof.
  assert (H : reachable (stateAfter exampleGuessState
                           (dispatch exampleDictionary exampleGuessState
                              (SubmitGuess "grave") zeroRand))).
  { apply reachable_step; [apply exampleGuessState_reachable | exact I]. }
  split; [exact H|].
  exact (proj2 (scores_are_what_the_logs_charge _ H)).
Defined.

(** X7. In every guessing state the component can be in, the letters the
    GUESS screen shows to the guesser are the inventory of the opponent's
    secret, all 11 tiles of it, and the opponent's secret word can be built
    from them. *)
Theorem guesser_sees_the_opponents_inventory (g : GameState) :
  reachable g -> guessPhase g ->
  exists opponentSecret,
    secret (playerOf (negb (isP1 g)) g) = Some opponentSecret
    /\ guessLetters g = letters opponentSecret
    /\ totalCount (guessLetters g) = 11
    /\ canBuild (word opponentSecret) (guessLetters g) = true.
Proof.
  intros Hr Hph.
  destruct (reachable_settled g Hr) as (_ & _ & _ & Hd & He & _ & Hg).
  destruct Hg as (s1 & s2 & Hs1 & Hs2 & Hsw & Hc1 & Hc2);
    [destruct Hph as [-> | ->]; reflexivity|].
  unfold fullInventory in Hd, He. rewrite Hs1 in Hd. rewrite Hs2 in He.
  unfold guessLetters, playerOf. rewrite Hsw.
  destruct (isP1 g); cbn [negb p1Gets p2Gets].
  - exists s2. repeat split; tauto.
  - exists s1. repeat split; tauto.
Qed.

Lemma guesser_sees_the_opponents_inventory_witness :
  reachable exampleGuessState
  /\ guessPhase exampleGuessState
  /\ exists opponentSecret,
       secret (p2 exampleGuessState) = Some opponentSecret
       /\ canBuild (word opponentSecret) (guessLetters exampleGuessState) = true.
Proof.
  assert (H1 : reachable exampleGuessState) by apply exampleGuessState_reachable.
  assert (H2 : guessPhase exampleGuessState) by (left; reflexivity).
  repeat (split; [assumption|]).
  destruct (guesser_sees_the_opponents_inventory exampleGuessState H1 H2)
    as (os & Hs & _ & _ & Hc).
  exists os. split; [exact Hs | exact Hc].
Defined.

(** X8. In every state the component can be in, no offered action throws:
    the handler always runs to its end and leaves a state.  In particular no
    card of the catalog reads a letter of an empty word, and the second
    confirmation always finds player 1's secret. *)
Theorem reachable_actions_never_throw
    (dict : Dictionary) (g : GameState) (a : Action) (r : Rand) :
  reachable g -> offered a ->
  exists g' message r', dispatch dict g a r = Done g' message r'.
Proof.
  intros Hr Hoff.
  destruct (reachable_wellFormed g Hr) as (W1 & W2 & W3 & W4 & W5).
  destruct a; unfold dispatch; destruct (phase g) eqn:Hph;
    try (do 3 eexists; reflexivity).
  - unfold startGame. destruct (negb (dictionaryReady g));
      [|destruct (drawVowelsAndConsonants r)]; do 3 eexists; reflexivity.
  - unfold confirmSetupWord, isSetupP1. rewrite Hph.
    destruct (secret (p1 g)); [|do 3 eexists; reflexivity].
    destruct (validateWord dict setupWord (letters p));
      [|destruct (drawVowelsAndConsonants r)]; do 3 eexists; reflexivity.
  - unfold confirmSetupWord, isSetupP1. rewrite Hph.
    destruct (W4 eq_refl) as [(s1 & Hs1 & _) [s2 Hs2]]. rewrite Hs2, Hs1.
    destruct (validateWord dict setupWord (letters s2));
      do 3 eexists; reflexivity.
  - unfold proceedToGuess. rewrite Hph. do 3 eexists; reflexivity.
  - unfold proceedToGuess. rewrite Hph. do 3 eexists; reflexivity.
  - destruct (W5 eq_refl) as [[s1 [Hs1 Hl1]]%confirmedSecret_wordSet
                                [s2 [Hs2 Hl2]]%confirmedSecret_wordSet].
    unfold playHintCard, isP1, playerOf. rewrite Hph. cbn [negb]. rewrite Hs2.
    destruct (requiresInput card && isEmptyString (trim cardInput));
      [do 3 eexists; reflexivity|].
    destruct (effect_returns card (word s2) (revealed (public (p1 g)))
                cardInput r Hoff Hl2) as (rv' & r' & ->).
    do 3 eexists; reflexivity.
  - destruct (W5 eq_refl) as [[s1 [Hs1 Hl1]]%confirmedSecret_wordSet
                                [s2 [Hs2 Hl2]]%confirmedSecret_wordSet].
    unfold playHintCard, isP1, playerOf. rewrite Hph. cbn [negb]. rewrite Hs1.
    destruct (requiresInput card && isEmptyString (trim cardInput));
      [do 3 eexists; reflexivity|].
    destruct (effect_returns card (word s1) (revealed (public (p2 g)))
                cardInput r Hoff Hl1) as (rv' & r' & ->).
    do 3 eexists; reflexivity.
  - unfold submitGuess. destruct (isEmptyString (trim guessWord));
      [do 3 eexists; reflexivity|].
    destruct (secret _); [|do 3 eexists; reflexivity].
    destruct (String.eqb _ _); do 3 eexists; reflexivity.
  - unfold submitGuess. destruct (isEmptyString (trim guessWord));
      [do 3 eexists; reflexivity|].
    destruct (secret _); [|do 3 eexists; reflexivity].
    destruct (String.eqb _ _); do 3 eexists; reflexivity.
Qed.

Lemma reachable_actions_never_throw_witness :
  reachable exampleGuessState
  /\ offered (ClickUseCard firstLetterCard "")
  /\ exists g' message r',
       dispatch exampleDictionary exampleGuessState
         (ClickUseCard firstLetterCard "") zeroRand
       = Done g' message r'.
Proof.
  assert (H1 : reachable exampleGuessState) by apply exampleGuessState_reachable.
  assert (H2 : offered (ClickUseCard firstLetterCard "")) by (simpl; tauto).
  repeat (split; [assumption|]).
  exact (reachable_actions_never_throw exampleDictionary exampleGuessState
           (ClickUseCard firstLetterCard "") zeroRand H1 H2).
Defined.

(** ** More on the letter pool *)

Section PoolFacts.

Lemma keys_put_present (o : Counts) (k : Letter) (v : Z) :
  In k (keys o) -> keys (putCount o k v) = keys o.
Proof.
  unfold putCount. induction o as [|[k0 v0] o IH]; simpl; intros Hin.
  - destruct Hin.
  - destruct (Ascii.eqb_spec k0 k) as [->|Hne]; simpl; [reflexivity|].
    f_equal. apply IH. destruct Hin; [congruence | assumption].
Qed.

Lemma keys_put_absent (o : Counts) (k : Letter) (v : Z) :
  ~ In k (keys o) -> keys (putCount o k v) = keys o ++ [k].
Proof.
  unfold putCount. induction o as [|[k0 v0] o IH]; simpl; intros Hout.
  - reflexivity.
  - destruct (Ascii.eqb_spec k0 k) as [->|Hne]; simpl.
    + exfalso. apply Hout. now left.
    + f_equal. apply IH. intros H. apply Hout. now right.
Qed.

Lemma distinctKeys_put (o : Counts) (k : Letter) (v : Z) :
  distinctKeys o -> distinctKeys (putCount o k v).
Proof.
  unfold distinctKeys. intros Hnd.
  destruct (in_dec ascii_dec k (keys o)) as [Hin|Hout].
  - now rewrite keys_put_present.
  - rewrite keys_put_absent by assumption. now apply NoDup_snoc.
Qed.

Lemma getCount_of_entry (o : Counts) (k : Letter) (v : Z) :
  distinctKeys o -> In (k, v) o -> getCount o k = v.
Proof.
  unfold distinctKeys, getCount. induction o as [|[k0 v0] o IH]; simpl.
  - intros _ [].
  - intros Hnd [Heq|Hin].
    + inversion Heq; subst. now rewrite Ascii.eqb_refl.
    + inversion Hnd as [|x l Hx Hl]; subst.
      destruct (Ascii.eqb_spec k0 k) as [->|Hne].
      * exfalso. apply Hx. apply (in_map fst) in Hin. exact Hin.
      * now apply IH.
Qed.

(** With weights that are not negative, a positive value never lands on an
    entry of weight 0. *)
Lemma pickLetter_positive (pool : Counts) (rand : Z) (l : Letter) :
  validInventory pool -> 0 < rand ->
  pickLetter pool rand = Some l ->
  exists w, In (l, w) pool /\ 0 < w.
Proof.
  unfold validInventory. revert rand.
  induction pool as [|[k w] pool IH]; intros rand Hv Hpos Hpick; simpl in *.
  - discriminate.
  - inversion Hv as [|e es Hw Hrest]; subst. simpl in Hw.
    destruct (Z.leb_spec (rand - w * UNIT) 0) as [Hle|Hgt].
    + inversion Hpick; subst. exists w. split; [now left|].
      pose proof UNIT_pos. nia.
    + destruct (IH (rand - w * UNIT) Hrest Hgt Hpick) as (w' & Hin & Hw').
      exists w'. split; [now right | exact Hw'].
Qed.

Lemma neverZero_rest (r : Rand) :
  neverZero r -> neverZero (snd (randomFloat r)) /\ 0 < fst (randomFloat r).
Proof.
  intros H. unfold randomFloat. simpl. split.
  - intros n. apply H.
  - pose proof (H O). pose proof (Z.mod_pos_bound (r O) UNIT UNIT_pos). lia.
Qed.

(** The drawing loop on any pool whose total is not negative: it adds to the
    result as many tiles as it has rounds, or as the pool holds if that is
    fewer, and no count of the result becomes negative. *)
Lemma drawLoop_total (n : nat) :
  forall (pool result : Counts) (r : Rand),
    0 <= totalCount pool ->
    let out := fst (drawLoop n pool result r) in
    totalCount out = totalCount result + Z.min (Z.of_nat n) (totalCount pool)
    /\ (validInventory result -> validInventory out).
Proof.
  induction n as [|n IH]; intros pool result r Hn; cbn zeta.
  - simpl. split; [lia | auto].
  - cbn [drawLoop]. destruct (Z.eqb_spec (totalCount pool) 0) as [H0|H0].
    { simpl. split; [lia | auto]. }
    pose proof (randomFloat_range r) as Hk.
    destruct (randomFloat r) as [k r'] eqn:Er. cbn [fst] in Hk.
    destruct (pickLetter_lands pool (k * totalCount pool)) as (l & Hp & Hin).
    { split; [nia|]. pose proof UNIT_pos. nia. }
    rewrite Hp.
    specialize (IH (putCount pool l (getCount pool l - 1))
                   (putCount result l (getCount result l + 1)) r').
    cbn zeta in IH. destruct IH as (Ht & Hvalid).
    { rewrite totalCount_put. lia. }
    split.
    + rewrite Ht, !totalCount_put. lia.
    + intros Hv. apply Hvalid. apply validInventory_put; [exact Hv|].
      pose proof (getCount_nonneg result l Hv). lia.
Qed.

Lemma validInventory_total (o : Counts) : validInventory o -> 0 <= totalCount o.
Proof.
  unfold validInventory, totalCount.
  induction 1 as [|e es He _ IHv]; simpl; lia.
Qed.

(** The drawing loop with random values that are never 0, on a pool without
    negative counts: what the result gains, the pool loses. *)
Lemma drawLoop_conserves (n : nat) :
  forall (pool result : Counts) (r : Rand),
    validInventory pool -> distinctKeys pool -> distinctKeys result ->
    neverZero r ->
    let out := drawLoop n pool result r in
    exists pool',
      validInventory pool'
      /\ (forall l, getCount (fst out) l + getCount pool' l
                    = getCount result l + getCount pool l)
      /\ distinctKeys (fst out)
      /\ neverZero (snd out).
Proof.
  induction n as [|n IH]; intros pool result r Hv Hdp Hdr Hr; cbn zeta.
  - exists pool. simpl. auto.
  - cbn [drawLoop].
    destruct (Z.eqb_spec (totalCount pool) 0) as [H0|H0].
    { exists pool. simpl. auto. }
    destruct (neverZero_rest r Hr) as [Hr' Hk].
    pose proof (randomFloat_range r) as Hrange.
    destruct (randomFloat r) as [k r'] eqn:Er. cbn [fst snd] in *.
    assert (Htot : 0 < totalCount pool).
    { pose proof (validInventory_total pool Hv). lia. }
    destruct (pickLetter pool (k * totalCount pool)) as [l|] eqn:Ep.
    + assert (Hrand : 0 < k * totalCount pool) by nia.
      destruct (pickLetter_positive pool _ l Hv Hrand Ep) as (w & Hin & Hw).
      pose proof (getCount_of_entry pool l w Hdp Hin) as Hgl.
      destruct (IH (putCount pool l (getCount pool l - 1))
                   (putCount result l (getCount result l + 1)) r')
        as (pool' & Hv' & Hsum & Hd' & Hr'').
      * apply validInventory_put; [exact Hv | lia].
      * now apply distinctKeys_put.
      * now apply distinctKeys_put.
      * exact Hr'.
      * exists pool'. repeat split; try assumption.
        intros x. rewrite Hsum. destruct (ascii_dec l x) as [->|Hne].
        -- rewrite !getCount_put_same. lia.
        -- rewrite !getCount_put_other by assumption. reflexivity.
    + apply IH; assumption.
Qed.

Lemma drawLetters_at_most_pool (pool : Counts) (n : nat) (r : Rand) (l : Letter) :
  validInventory pool -> distinctKeys pool -> neverZero r ->
  0 <= getCount (fst (drawLetters pool n r)) l <= getCount pool l
  /\ distinctKeys (fst (drawLetters pool n r))
  /\ neverZero (snd (drawLetters pool n r)).
Proof.
  intros Hv Hd Hr. unfold drawLetters.
  destruct (drawLoop_conserves n pool [] r Hv Hd (List.NoDup_nil _) Hr)
    as (pool' & Hv' & Hsum & Hd' & Hr').
  destruct (drawLoop_total n pool [] r (validInventory_total pool Hv))
    as [_ Hvalid].
  repeat split; try assumption.
  - apply getCount_nonneg. apply Hvalid. constructor.
  - specialize (Hsum l). pose proof (getCount_nonneg pool' l Hv').
    unfold getCount at 3 in Hsum. simpl in Hsum. lia.
Qed.

End PoolFacts.

Section MergeFacts.

Lemma getCount_absent (o : Counts) (k : Letter) :
  ~ In k (keys o) -> getCount o k = 0.
Proof.
  intros H. apply get_None_iff in H. unfold getCount. now rewrite H.
Qed.

Lemma getCount_cons (k : Letter) (v : Z) (o : Counts) (l : Letter) :
  getCount ((k, v) :: o) l = if Ascii.eqb k l then v else getCount o l.
Proof. unfold getCount. simpl. now destruct (Ascii.eqb k l). Qed.

Lemma getCount_mergeCounts (from into : Counts) (l : Letter) :
  distinctKeys from ->
  getCount (mergeCounts into from) l = getCount into l + getCount from l.
Proof.
  unfold mergeCounts, distinctKeys. revert into.
  induction from as [|[k v] from IH]; intros into Hnd.
  - simpl. unfold getCount at 3. simpl. lia.
  - inversion Hnd as [|x xs Hx Hxs]; subst.
    cbn [fold_left fst snd]. rewrite IH by assumption. rewrite getCount_cons.
    destruct (Ascii.eqb_spec k l) as [->|Hne].
    + rewrite getCount_put_same, (getCount_absent from l Hx). lia.
    + rewrite getCount_put_other by assumption. reflexivity.
Qed.

Lemma in_keys_mergeCounts (from into : Counts) (l : Letter) :
  In l (keys (mergeCounts into from)) <-> In l (keys into) \/ In l (keys from).
Proof.
  unfold mergeCounts. revert into.
  induction from as [|[k v] from IH]; intros into; simpl.
  - tauto.
  - rewrite IH, in_keys_put. intuition.
Qed.

Lemma distinctKeys_mergeCounts (from into : Counts) :
  distinctKeys into -> distinctKeys (mergeCounts into from).
Proof.
  unfold mergeCounts. revert into.
  induction from as [|[k v] from IH]; intros into Hd; simpl; [exact Hd|].
  apply IH. now apply distinctKeys_put.
Qed.

Lemma allDistinct_NoDup (ls : list Letter) :
  allDistinct ls = true -> List.NoDup ls.
Proof.
  induction ls as [|l ls IH]; simpl; intros H; [constructor|].
  apply andb_true_iff in H. destruct H as [Hl Hrest].
  constructor; [|now apply IH].
  intros Hin. apply existsb_eqb_in in Hin. rewrite Hin in Hl. discriminate.
Qed.

Lemma pools_valid :
  validInventory vowelPool /\ validInventory consonantPool
  /\ distinctKeys vowelPool /\ distinctKeys consonantPool.
Proof.
  repeat split.
  - vm_compute. repeat constructor; discriminate.
  - vm_compute. repeat constructor; discriminate.
  - apply allDistinct_NoDup. vm_compute. reflexivity.
  - apply allDistinct_NoDup. vm_compute. reflexivity.
Qed.

Lemma vowel_keys (l : Letter) :
  In l (keys vowelPool) -> In l VOWELS /\ isVowel l = true.
Proof.
  intros H. vm_compute in H.
  repeat (destruct H as [<-|H];
          [split; [apply existsb_eqb_in|]; reflexivity|]).
  destruct H.
Qed.

Lemma consonant_keys (l : Letter) :
  In l (keys consonantPool) ->
  isVowel l = false /\ In l (keys SCRABBLE_COUNTS).
Proof.
  intros H. vm_compute in H.
  repeat (destruct H as [<-|H];
          [split; [|apply existsb_eqb_in]; reflexivity|]).
  destruct H.
Qed.

Lemma pools_split_the_table (l : Letter) :
  getCount vowelPool l + getCount consonantPool l = getCount SCRABBLE_COUNTS l.
Proof. destruct l as [[] [] [] [] [] [] [] []]; vm_compute; reflexivity. Qed.

End MergeFacts.

(** X9. Whatever the random values are, a draw yields 4 vowel tiles and 7
    consonant tiles, 11 in all: the vowel part holds 4 tiles on keys among
    A, E, I, O, U, the consonant part 7 tiles on other keys of the frequency
    table, the combined inventory holds 11 tiles of which 4 are on vowels
    and 7 on consonants, and no count is negative. *)
Theorem every_draw_is_4_vowels_and_7_consonants (r : Rand) :
  let d := fst (drawVowelsAndConsonants r) in
  totalCount (vowels d) = 4
  /\ totalCount (consonants d) = 7
  /\ totalCount (combined d) = 11
  /\ countWhere isVowel (combined d) = 4
  /\ countWhere isConsonant (combined d) = 7
  /\ (forall l, In l (keys (vowels d)) -> In l VOWELS)
  /\ (forall l, In l (keys (consonants d)) ->
                ~ In l VOWELS /\ In l (keys SCRABBLE_COUNTS))
  /\ validInventory (combined d).
Proof.
  pose proof (drawVowelsAndConsonants_sizes r) as Hsizes.
  unfold drawVowelsAndConsonants in *.
  pose proof (drawLetters_spec vowelPool 4 r) as Hv.
  destruct (drawLetters vowelPool 4 r) as [vs r1].
  pose proof (drawLetters_spec consonantPool 7 r1) as Hc.
  destruct (drawLetters consonantPool 7 r1) as [cs r2].
  cbn [fst combined vowels consonants] in *. cbn zeta in *.
  destruct Hv as (Hvt & Hvk & Hvv); [vm_compute; discriminate|].
  destruct Hc as (Hct & Hck & Hcv); [vm_compute; discriminate|].
  destruct Hsizes as (H11 & H4 & H7 & Hvalid).
  split; [exact Hvt|]. split; [exact Hct|]. split; [exact H11|].
  split; [exact H4|]. split; [exact H7|].
  split; [intros l Hl; exact (proj1 (vowel_keys l (Hvk l Hl)))|].
  split; [|exact Hvalid].
  intros l Hl. destruct (consonant_keys l (Hck l Hl)) as [Hnot Hin].
  split; [|exact Hin].
  intros Hv. apply existsb_eqb_in in Hv. unfold isVowel in Hnot. congruence.
Qed.

(** X10. [drawLetters] on a pool whose total is not negative draws [n] tiles,
    or all the tiles of the pool if those are fewer, whatever the random
    values are; from a pool that holds nothing it returns the empty object
    and reads no random value. *)
Theorem drawLetters_draws_n_or_the_whole_pool
    (pool : Counts) (n : nat) (r : Rand) :
  0 <= totalCount pool ->
  totalCount (fst (drawLetters pool n r))
  = Z.min (Z.of_nat n) (totalCount pool)
  /\ (totalCount pool = 0 -> drawLetters pool n r = ([], r)).
Proof.
  intros Hpool. split.
  - destruct (drawLoop_total n pool [] r Hpool) as [Ht _].
    unfold drawLetters. rewrite Ht. reflexivity.
  - intros H0. unfold drawLetters. destruct n as [|n]; [reflexivity|].
    cbn [drawLoop]. rewrite H0. reflexivity.
Qed.

Lemma drawLetters_draws_n_or_the_whole_pool_witness :
  0 <= totalCount [("A"%char, 2); ("B"%char, 1)]
  /\ totalCount (fst (drawLetters [("A"%char, 2); ("B"%char, 1)] 5 exampleRand))
     = 3.
Proof.
  assert (H : 0 <= totalCount [("A"%char, 2); ("B"%char, 1)])
    by (vm_compute; discriminate).
  split; [exact H|].
  exact (proj1 (drawLetters_draws_n_or_the_whole_pool
                  [("A"%char, 2); ("B"%char, 1)] 5 exampleRand H)).
Defined.

(** X11. When no random value is 0, a draw stays within the frequency
    table: for every letter the drawn count is at most the count the table
    has for it, and the combined inventory has each key once. *)
Theorem draw_stays_within_the_table (r : Rand) (l : Letter) :
  neverZero r ->
  0 <= getCount (combined (fst (drawVowelsAndConsonants r))) l
    <= getCount SCRABBLE_COUNTS l
  /\ distinctKeys (combined (fst (drawVowelsAndConsonants r))).
Proof.
  intros Hr. destruct pools_valid as (Hvv & Hvc & Hdv & Hdc).
  unfold drawVowelsAndConsonants.
  pose proof (drawLetters_at_most_pool vowelPool 4 r l Hvv Hdv Hr)
    as (Hv & Hdvs & Hr1).
  destruct (drawLetters vowelPool 4 r) as [vs r1]. cbn [fst snd] in *.
  pose proof (drawLetters_at_most_pool consonantPool 7 r1 l Hvc Hdc Hr1)
    as (Hc & Hdcs & _).
  destruct (drawLetters consonantPool 7 r1) as [cs r2]. cbn [fst snd combined] in *.
  rewrite getCount_mergeCounts by assumption.
  pose proof (pools_split_the_table l).
  split; [lia | now apply distinctKeys_mergeCounts].
Qed.

Lemma draw_stays_within_the_table_witness :
  neverZero oneRand
  /\ getCount (combined (fst (drawVowelsAndConsonants oneRand))) "B"%char
     <= getCount SCRABBLE_COUNTS "B"%char.
Proof.
  assert (H : neverZero oneRand) by (intros n; vm_compute; discriminate).
  split; [exact H|].
  exact (proj2 (proj1 (draw_stays_within_the_table oneRand "B"%char H))).
Defined.

(** ** flattenLetters *)

Section FlattenFacts.

Lemma get_of_entry (o : Counts) (k : Letter) (v : Z) :
  distinctKeys o -> In (k, v) o -> get Ascii.eqb o k = Some v.
Proof.
  intros Hd Hin. pose proof (getCount_of_entry o k v Hd Hin) as Hc.
  assert (Hk : In k (keys o)) by (apply (in_map fst) in Hin; exact Hin).
  rewrite (in_keys_getCount_get o k Hk). now rewrite Hc.
Qed.

Lemma flatten_fold (o rest : Counts) (acc : list Letter) :
  distinctKeys o -> incl rest o ->
  fold_left
    (fun result letter =>
       match get Ascii.eqb o letter with
       | Some n => result ++ repeat letter (Z.to_nat n)
       | None => result
       end)
    (keys rest) acc
  = acc ++ flat_map (fun e => repeat (fst e) (Z.to_nat (snd e))) rest.
Proof.
  intros Hd. revert acc. induction rest as [|[k v] rest IH]; intros acc Hincl.
  - simpl. now rewrite app_nil_r.
  - cbn [keys map fst fold_left flat_map snd].
    rewrite (get_of_entry o k v Hd (Hincl _ (or_introl eq_refl))).
    fold (keys rest). rewrite IH.
    + now rewrite <- app_assoc.
    + intros e He. apply Hincl. now right.
Qed.

Lemma flattenLetters_flat_map (o : Counts) :
  distinctKeys o ->
  flattenLetters o = flat_map (fun e => repeat (fst e) (Z.to_nat (snd e))) o.
Proof.
  intros Hd. unfold flattenLetters.
  exact (flatten_fold o o [] Hd (incl_refl o)).
Qed.

Lemma count_occ_repeat (l x : Letter) (n : nat) :
  count_occ ascii_dec (repeat x n) l = if ascii_dec x l then n else O.
Proof.
  induction n as [|n IH]; simpl.
  - now destruct (ascii_dec x l).
  - rewrite IH. destruct (ascii_dec x l); reflexivity.
Qed.

End FlattenFacts.

(** X12. For an inventory with each key once and no negative count,
    [flattenLetters] lists every letter exactly as often as the inventory
    counts it: the list has as many letters as the inventory has tiles. *)
Theorem flattenLetters_spreads_the_counts (inv : Counts) :
  distinctKeys inv -> validInventory inv ->
  Z.of_nat (List.length (flattenLetters inv)) = totalCount inv
  /\ forall l, Z.of_nat (count_occ ascii_dec (flattenLetters inv) l)
               = getCount inv l.
Proof.
  intros Hd Hv. rewrite (flattenLetters_flat_map inv Hd).
  unfold distinctKeys, validInventory in *. split.
  - clear Hd. unfold totalCount. induction Hv as [|[k v] o Hk _ IH].
    + reflexivity.
    + cbn [flat_map fold_right fst snd] in *.
      rewrite length_app, repeat_length, Nat2Z.inj_add, IH. lia.
  - intros l. induction Hv as [|[k v] o Hk Ho IH].
    + reflexivity.
    + inversion Hd as [|x xs Hx Hxs]; subst.
      cbn [flat_map fst snd] in *.
      rewrite count_occ_app, count_occ_repeat, Nat2Z.inj_add.
      specialize (IH Hxs). unfold Letter in *. rewrite IH.
      rewrite getCount_cons.
      destruct (ascii_dec k l) as [->|Hne].
      * rewrite Ascii.eqb_refl, (getCount_absent o l Hx). lia.
      * apply Ascii.eqb_neq in Hne. rewrite Hne. lia.
Qed.

Lemma flattenLetters_spreads_the_counts_witness :
  distinctKeys exampleInventory
  /\ validInventory exampleInventory
  /\ Z.of_nat (List.length (flattenLetters exampleInventory)) = 11.
Proof.
  assert (H1 : distinctKeys exampleInventory)
    by (apply allDistinct_NoDup; vm_compute; reflexivity).
  assert (H2 : validInventory exampleInventory)
    by (vm_compute; repeat constructor; discriminate).
  repeat (split; [assumption|]).
  exact (proj1 (flattenLetters_spreads_the_counts exampleInventory H1 H2)).
Defined.

(** ** More on countLetters, canBuild and validateWord *)

Section BuildFacts.

Lemma totalCount_fold_count (ls : list Letter) (acc : Counts) :
  totalCount
    (fold_left
       (fun counts letter => putCount counts letter (getCount counts letter + 1))
       ls acc)
  = totalCount acc + Z.of_nat (List.length ls).
Proof.
  revert acc. induction ls as [|l ls IH]; intros acc; simpl.
  - lia.
  - rewrite IH, totalCount_put. lia.
Qed.

Lemma distinctKeys_fold_count (ls : list Letter) (acc : Counts) :
  distinctKeys acc ->
  distinctKeys
    (fold_left
       (fun counts letter => putCount counts letter (getCount counts letter + 1))
       ls acc).
Proof.
  revert acc. induction ls as [|l ls IH]; intros acc Hd; simpl; [exact Hd|].
  apply IH. now apply distinctKeys_put.
Qed.

Lemma length_chars (s : string) : List.length (chars s) = String.length s.
Proof. induction s as [|c s IH]; simpl; congruence. Qed.

End BuildFacts.

(** X13. [countLetters] counts every character of the word once, under its
    uppercase form: the counts add up to the length of the word, each key
    occurs once, the keys are exactly the characters of the uppercased word,
    and the count of a key is the number of its occurrences. *)
Theorem countLetters_counts_every_character (w : string) :
  totalCount (countLetters w) = strLength w
  /\ distinctKeys (countLetters w)
  /\ forall c,
       (In c (keys (countLetters w)) <-> In c (chars (toUpperCase w)))
       /\ getCount (countLetters w) c
          = Z.of_nat (count_occ ascii_dec (chars (toUpperCase w)) c).
Proof.
  split; [|split].
  - unfold countLetters. rewrite totalCount_fold_count.
    unfold totalCount, strLength. simpl.
    now rewrite length_chars, length_toUpperCase.
  - unfold countLetters. apply distinctKeys_fold_count. constructor.
  - intros c. split; [apply in_keys_countLetters|].
    apply getCount_countLetters.
Qed.

(** X14. Buildability and validation ignore letter case: uppercasing or
    lowercasing the word changes neither the result of [canBuild] nor the
    result of [validateWord]. *)
Theorem validation_ignores_letter_case
    (dict : Dictionary) (w : string) (inv : Counts) :
  canBuild (toUpperCase w) inv = canBuild w inv
  /\ canBuild (toLowerCase w) inv = canBuild w inv
  /\ validateWord dict (toUpperCase w) inv = validateWord dict w inv
  /\ validateWord dict (toLowerCase w) inv = validateWord dict w inv.
Proof.
  assert (Hu : canBuild (toUpperCase w) inv = canBuild w inv)
    by (apply canBuild_same_upper, toUpperCase_idem).
  assert (Hl : canBuild (toLowerCase w) inv = canBuild w inv)
    by (apply canBuild_same_upper, toUpperCase_toLowerCase).
  assert (Hlow : toLowerCase (toLowerCase w) = toLowerCase w).
  { rewrite <- (toLowerCase_toUpperCase (toLowerCase w)).
    now rewrite toUpperCase_toLowerCase, toLowerCase_toUpperCase. }
  repeat split; try assumption.
  - unfold validateWord, isValidWord, strLength.
    now rewrite length_toUpperCase, Hu, toLowerCase_toUpperCase.
  - unfold validateWord, isValidWord, strLength.
    now rewrite length_toLowerCase, Hl, Hlow.
Qed.

(** X15. [canBuild] depends on the letters of the word only, not on their
    order: two words whose uppercased characters are permutations of each
    other are both buildable or both not. *)
Theorem canBuild_ignores_letter_order (w w' : string) (inv : Counts) :
  Permutation (chars (toUpperCase w)) (chars (toUpperCase w')) ->
  canBuild w inv = canBuild w' inv.
Proof.
  intros Hperm.
  pose proof (proj1 (Permutation_count_occ ascii_dec _ _) Hperm) as Hcount.
  assert (Hiff : canBuild w inv = true <-> canBuild w' inv = true).
  { rewrite !canBuild_true. unfold requiredCount.
    split; intros H c Hc.
    - rewrite <- Hcount. apply H.
      apply (Permutation_in c (Permutation_sym Hperm)). exact Hc.
    - rewrite Hcount. apply H.
      apply (Permutation_in c Hperm). exact Hc. }
  destruct (canBuild w inv), (canBuild w' inv); intuition congruence.
Qed.

Lemma canBuild_ignores_letter_order_witness :
  Permutation (chars (toUpperCase "tree")) (chars (toUpperCase "Reet"))
  /\ canBuild "tree" exampleInventory = canBuild "Reet" exampleInventory.
Proof.
  assert (H : Permutation (chars (toUpperCase "tree"))
                (chars (toUpperCase "Reet"))).
  { vm_compute.
    apply (Permutation_trans
             (l' := ["R"%char; "T"%char; "E"%char; "E"%char])).
    - apply perm_swap.
    - apply perm_skip.
      change ["T"%char; "E"%char; "E"%char]
        with (["T"%char] ++ ["E"%char; "E"%char]).
      apply Permutation_app_comm. }
  split; [exact H|].
  exact (canBuild_ignores_letter_order "tree" "Reet" exampleInventory H).
Defined.

(** X16. A richer inventory builds at least the same words: if every count
    of [inv'] is at least the count of [inv], every word [canBuild] accepts
    with [inv] is accepted with [inv']. *)
Theorem canBuild_grows_with_the_inventory (w : string) (inv inv' : Counts) :
  (forall c, getCount inv c <= getCount inv' c) ->
  canBuild w inv = true -> canBuild w inv' = true.
Proof.
  intros Hle. rewrite !canBuild_true. intros H c Hc.
  specialize (H c Hc). specialize (Hle c). lia.
Qed.

Lemma canBuild_grows_with_the_inventory_witness :
  (forall c, getCount [("A"%char, 1); ("T"%char, 1)] c
             <= getCount [("T"%char, 2); ("A"%char, 1)] c)
  /\ canBuild "at" [("A"%char, 1); ("T"%char, 1)] = true
  /\ canBuild "at" [("T"%char, 2); ("A"%char, 1)] = true.
Proof.
  assert (H1 : forall c, getCount [("A"%char, 1); ("T"%char, 1)] c
                         <= getCount [("T"%char, 2); ("A"%char, 1)] c).
  { intros c. destruct c as [[] [] [] [] [] [] [] []]; vm_compute; discriminate. }
  assert (H2 : canBuild "at" [("A"%char, 1); ("T"%char, 1)] = true)
    by reflexivity.
  repeat (split; [assumption|]).
  exact (canBuild_grows_with_the_inventory "at" _ _ H1 H2).
Defined.

(** X17. A word that passes validation has at least 3 characters, each of
    its characters, uppercased, is a key of the inventory with a positive
    count, and the dictionary has loaded and holds its lowercase-trimmed
    form.  A word with a space, a digit or any other character the inventory
    lacks is never accepted. *)
Theorem validated_word_uses_inventory_letters
    (dict : Dictionary) (w : string) (inv : Counts) :
  validateWord dict w inv = None ->
  3 <= strLength w
  /\ (forall c, In c (chars (toUpperCase w)) ->
                In c (keys inv) /\ 1 <= getCount inv c)
  /\ exists words, dict = Some words /\ trim (toLowerCase w) ∈ words.
Proof.
  intros Hval. pose proof (validateWord_None_length dict w inv Hval) as Hlen.
  pose proof (validateWord_None_canBuild dict w inv Hval) as Hcb.
  split; [exact Hlen|]. split.
  - intros c Hc. rewrite canBuild_true in Hcb. specialize (Hcb c Hc).
    assert (Hreq : 1 <= requiredCount w c).
    { unfold requiredCount. apply (count_occ_In ascii_dec) in Hc. lia. }
    split; [|lia].
    destruct (in_dec ascii_dec c (keys inv)) as [Hin|Hout]; [exact Hin|].
    rewrite (getCount_absent inv c Hout) in Hcb. lia.
  - unfold validateWord in Hval. unfold MIN_WORD_LENGTH in Hval.
    destruct (strLength w <? 3); [discriminate|]. rewrite Hcb in Hval.
    simpl in Hval. unfold isValidWord in Hval. destruct dict as [words|];
      [|discriminate].
    exists words. split; [reflexivity|].
    destruct (bool_decide (trim (toLowerCase w) ∈ words)) eqn:E;
      [|discriminate].
    now apply bool_decide_eq_true in E.
Qed.

Lemma validated_word_uses_inventory_letters_witness :
  validateWord exampleDictionary "Rattle" exampleInventory = None
  /\ 3 <= strLength "Rattle".
Proof.
  assert (H : validateWord exampleDictionary "Rattle" exampleInventory = None)
    by (vm_compute; reflexivity).
  split; [exact H|].
  exact (proj1 (validated_word_uses_inventory_letters exampleDictionary
                  "Rattle" exampleInventory H)).
Defined.

(** ** What the hint cards reveal *)

Section RevealFacts.

Lemma includes_single (s : string) (c : ascii) :
  includes s (String c EmptyString) = true <-> In c (chars s).
Proof.
  induction s as [|a s IH]; simpl.
  - split; [discriminate | intros []].
  - destruct (ascii_dec c a) as [->|Hne].
    + assert (Hp : String.prefix "" s = true) by (destruct s; reflexivity).
      rewrite Hp. simpl. split; auto.
    + simpl. rewrite IH. split; [auto|]. intros [H|H]; [congruence | exact H].
Qed.

Lemma length_uniqueLetters_le (ls : list ascii) :
  (List.length (uniqueLetters ls) <= List.length ls)%nat.
Proof.
  apply NoDup_incl_length.
  - unfold uniqueLetters. apply NoDup_fold_unique. constructor.
  - intros x Hx. now apply in_uniqueLetters.
Qed.

Lemma uniqueLetters_shorter_iff (ls : list ascii) :
  (List.length (uniqueLetters ls) <? List.length ls)%nat = true
  <-> ~ List.NoDup ls.
Proof.
  rewrite Nat.ltb_lt. split.
  - intros Hlt Hnd.
    assert ((List.length ls <= List.length (uniqueLetters ls))%nat); [|lia].
    apply NoDup_incl_length; [exact Hnd|].
    intros x Hx. now apply in_uniqueLetters.
  - intros Hdup. pose proof (length_uniqueLetters_le ls) as Hle.
    destruct (Nat.eq_dec (List.length (uniqueLetters ls)) (List.length ls))
      as [Heq|Hne]; [|lia].
    exfalso. apply Hdup.
    apply (NoDup_incl_NoDup (l := uniqueLetters ls)).
    + unfold uniqueLetters. apply NoDup_fold_unique. constructor.
    + lia.
    + intros x Hx. now apply in_uniqueLetters.
Qed.

End RevealFacts.

(** X18. The card Contains Letter? answers truthfully.  For an input of one
    character it never throws, reads no random value, and records under the
    uppercased character [true] exactly when that letter occurs in the
    word, letter case ignored; every other key of [contains] and every other
    field of the revealed record stay as they were. *)
Theorem containsLetter_answers_truthfully
    (w : string) (rv : RevealedInfo) (c : ascii) (r : Rand) :
  exists answer : bool,
    effect containsLetterCard w rv (String c EmptyString) r
    = Some (setContains rv
              (<[ String (upperChar c) EmptyString := answer ]>
                 (default ∅ (contains rv))), r)
    /\ (answer = true <-> occursIn c w).
Proof.
  exists (includes (toUpperCase w) (String (upperChar c) EmptyString)).
  split; [reflexivity|]. apply includes_single.
Qed.

(** X19. The card Double Trouble answers truthfully: it never throws, reads
    no random value, and records under the key [_DUPLICATES_] the value
    [true] exactly when some character occurs twice in the lowercased
    word. *)
Theorem doubleTrouble_answers_truthfully
    (w : string) (rv : RevealedInfo) (input : string) (r : Rand) :
  exists answer : bool,
    effect doubleTroubleCard w rv input r
    = Some (setContains rv
              (<[ "_DUPLICATES_" := answer ]> (default ∅ (contains rv))), r)
    /\ (answer = true <-> ~ List.NoDup (chars (toLowerCase w))).
Proof.
  eexists. split; [reflexivity|]. apply uniqueLetters_shorter_iff.
Qed.

(** X20. While some letter of the word is not yet known, the card Random
    Letter reads one random value and appends to the known letters exactly
    one letter, which occurs in the uppercased word and was not known
    before. *)
Theorem randomLetter_reveals_a_new_letter
    (w : string) (rv : RevealedInfo) (input : string) (r : Rand) :
  ~ allLettersKnown w rv ->
  exists l,
    effect randomLetterCard w rv input r
    = Some (setKnownLetters rv (default [] (knownLetters rv) ++ [l]),
            snd (randomFloat r))
    /\ In l (chars (toUpperCase w))
    /\ ~ In l (default [] (knownLetters rv)).
Proof.
  intros Hnot. simpl. unfold randomLetterEffect.
  set (existing := default [] (knownLetters rv)).
  destruct (List.filter (fun l => negb (existsb (Ascii.eqb l) existing))
              (uniqueLetters (map upperChar (chars w)))) as [|a av] eqn:Ef.
  - exfalso. apply Hnot. intros c Hc.
    destruct (in_dec ascii_dec c existing) as [Hin|Hout]; [exact Hin|].
    assert (Hf : In c (List.filter
                         (fun l => negb (existsb (Ascii.eqb l) existing))
                         (uniqueLetters (map upperChar (chars w))))).
    { apply filter_In. split.
      - apply in_uniqueLetters. now rewrite <- chars_toUpperCase.
      - apply negb_true_iff. apply not_true_is_false. intros E.
        apply existsb_eqb_in in E. contradiction. }
    rewrite Ef in Hf. destruct Hf.
  - pose proof (randomFloat_range r) as Hk.
    unfold randomFloat in *. cbn [fst snd] in *.
    destruct (pickAt_in (a :: av) (r O mod UNIT) ltac:(discriminate) Hk)
      as (l & Hp & Hl).
    rewrite Hp. exists l. split; [reflexivity|].
    rewrite <- Ef in Hl. apply filter_In in Hl. destruct Hl as [Hu Hn].
    split.
    + rewrite chars_toUpperCase. now apply in_uniqueLetters.
    + apply negb_true_iff in Hn. intros Hin. apply existsb_eqb_in in Hin.
      congruence.
Qed.

Lemma randomLetter_reveals_a_new_letter_witness :
  ~ allLettersKnown "eel" (setKnownLetters noRevealed ["L"%char])
  /\ exists l,
       effect randomLetterCard "eel" (setKnownLetters noRevealed ["L"%char])
         "" exampleRand
       = Some (setKnownLetters (setKnownLetters noRevealed ["L"%char])
                 (["L"%char] ++ [l]),
               snd (randomFloat exampleRand))
       /\ In l (chars (toUpperCase "eel")).
Proof.
  assert (H : ~ allLettersKnown "eel" (setKnownLetters noRevealed ["L"%char])).
  { intros Hall. specialize (Hall "E"%char). simpl in Hall.
    destruct Hall as [Hx|[]]; [tauto | discriminate]. }
  split; [exact H|].
  destruct (randomLetter_reveals_a_new_letter "eel"
              (setKnownLetters noRevealed ["L"%char]) "" exampleRand H)
    as (l & He & Hin & _).
  exists l. split; [exact He | exact Hin].
Defined.

(** X21. While some position of the word is not in the pattern, the card
    Pattern Peek reads one random value and adds to the pattern one position
    that was not in it, with the uppercased character the word has there; it
    does not throw.  A pattern whose entries were all correct stays
    correct. *)
Theorem patternPeek_reveals_a_new_position
    (w : string) (rv : RevealedInfo) (input : string) (r : Rand) :
  (exists i, (i < String.length w)%nat /\ default ∅ (pattern rv) !! i = None) ->
  exists idx c,
    effect patternPeekCard w rv input r
    = Some (setPattern rv (<[ idx := upperChar c ]> (default ∅ (pattern rv))),
            snd (randomFloat r))
    /\ (idx < String.length w)%nat
    /\ default ∅ (pattern rv) !! idx = None
    /\ String.get idx w = Some c
    /\ (patternCorrect w (default ∅ (pattern rv)) ->
        patternCorrect w (<[ idx := upperChar c ]> (default ∅ (pattern rv)))).
Proof.
  intros (i & Hi & Hnone). simpl. unfold patternPeekEffect.
  set (pat := default ∅ (pattern rv)) in *.
  destruct (List.filter
              (fun i => match pat !! i with Some _ => false | None => true end)
              (seq 0 (String.length w))) as [|a av] eqn:Ef.
  - exfalso.
    assert (Hf : In i (List.filter
                         (fun i => match pat !! i with
                                   | Some _ => false | None => true end)
                         (seq 0 (String.length w)))).
    { apply filter_In. split; [apply in_seq; lia | now rewrite Hnone]. }
    rewrite Ef in Hf. destruct Hf.
  - pose proof (randomFloat_range r) as Hk.
    unfold randomFloat in *. cbn [fst snd] in *.
    destruct (pickAt_in (a :: av) (r O mod UNIT) ltac:(discriminate) Hk)
      as (idx & Hp & Hidx).
    rewrite Hp. rewrite <- Ef in Hidx. apply filter_In in Hidx.
    destruct Hidx as [Hseq Hnew]. apply in_seq in Hseq.
    destruct (get_some w idx ltac:(lia)) as [c Hc]. rewrite Hc.
    exists idx, c. split; [reflexivity|]. split; [lia|].
    split; [destruct (pat !! idx); [discriminate | reflexivity]|].
    split; [exact Hc|].
    intros Hcorrect j cj Hj. destruct (Nat.eq_dec idx j) as [->|Hne].
    + rewrite lookup_insert_eq in Hj. inversion Hj; subst. eauto.
    + rewrite lookup_insert_ne in Hj by assumption. now apply Hcorrect.
Qed.

Lemma patternPeek_reveals_a_new_position_witness :
  (exists i, (i < String.length "eel")%nat
             /\ default ∅ (pattern noRevealed) !! i = None)
  /\ exists idx c,
       effect patternPeekCard "eel" noRevealed "" exampleRand
       = Some (setPattern noRevealed
                 (<[ idx := upperChar c ]> (default ∅ (pattern noRevealed))),
               snd (randomFloat exampleRand))
       /\ String.get idx "eel" = Some c.
Proof.
  assert (H : exists i, (i < String.length "eel")%nat
                        /\ default ∅ (pattern noRevealed) !! i = None).
  { exists O. split; [simpl; lia | reflexivity]. }
  split; [exact H|].
  destruct (patternPeek_reveals_a_new_position "eel" noRevealed ""
              exampleRand H) as (idx & c & He & _ & _ & Hc & _).
  exists idx, c. split; [exact He | exact Hc].
Defined.

(** X22. Once every position of the word is in the pattern, the card
    Pattern Peek returns the revealed record it was given and reads no
    random value; in particular it is harmless on the empty word. *)
Theorem patternPeek_all_revealed
    (w : string) (rv : RevealedInfo) (input : string) (r : Rand) :
  (forall i, (i < String.length w)%nat ->
             default ∅ (pattern rv) !! i <> None) ->
  effect patternPeekCard w rv input r = Some (rv, r).
Proof.
  intros Hall. simpl. unfold patternPeekEffect.
  rewrite filter_nil_all_false; [reflexivity|].
  intros i Hi. apply in_seq in Hi. specialize (Hall i ltac:(lia)).
  destruct (default ∅ (pattern rv) !! i); [reflexivity | congruence].
Qed.

Lemma patternPeek_all_revealed_witness :
  (forall i, (i < String.length "eel")%nat ->
             default ∅ (pattern eelRevealed) !! i <> None)
  /\ effect patternPeekCard "eel" eelRevealed "" zeroRand
     = Some (eelRevealed, zeroRand).
Proof.
  assert (H : forall i, (i < String.length "eel")%nat ->
                        default ∅ (pattern eelRevealed) !! i <> None).
  { intros i Hi. simpl in Hi.
    destruct i as [|[|[|i]]]; [vm_compute; discriminate ..| lia]. }
  split; [exact H|].
  exact (patternPeek_all_revealed "eel" eelRevealed "" zeroRand H).
Defined.

(** X23. No card of the catalog erases a clue: whenever an effect returns,
    every scalar field that was set is still set, every key of [contains] is
    still a key, the known letters are still there in the same order, and
    every entry of the pattern is unchanged. *)
Theorem no_card_erases_a_clue
    (card : HintCard) (w : string) (rv : RevealedInfo) (input : string)
    (r : Rand) (rv' : RevealedInfo) (r' : Rand) :
  In card HINT_CARDS ->
  effect card w rv input r = Some (rv', r') ->
  neverErased rv rv'.
Proof.
  assert (Hsame : forall x, neverErased x x).
  { intros x. unfold neverErased, beginsWith.
    repeat split; auto. exists []. now rewrite app_nil_r. }
  assert (Hkeys : forall (m : gmap string bool) k0 b k,
             is_Some (m !! k) -> is_Some (<[ k0 := b ]> m !! k)).
  { intros m k0 b k Hk. destruct (decide (k0 = k)) as [->|Hne].
    - rewrite lookup_insert_eq. eauto.
    - now rewrite lookup_insert_ne. }
  intros Hin Heff. unfold HINT_CARDS in Hin. simpl in Hin.
  destruct Hin as [<-|[<-|[<-|[<-|[<-|[<-|[<-|[<-|[]]]]]]]]]; simpl in Heff.
  - unfold lastLetterEffect in Heff. destruct (lastChar w); inversion Heff; subst.
    unfold neverErased, beginsWith. simpl. repeat split; eauto.
    exists []. now rewrite app_nil_r.
  - unfold wordLengthEffect in Heff. inversion Heff; subst.
    unfold neverErased, beginsWith. simpl. repeat split; eauto.
    exists []. now rewrite app_nil_r.
  - unfold vowelCountEffect in Heff. inversion Heff; subst.
    unfold neverErased, beginsWith. simpl. repeat split; eauto.
    exists []. now rewrite app_nil_r.
  - unfold firstLetterEffect in Heff. destruct w; inversion Heff; subst.
    unfold neverErased, beginsWith. simpl. repeat split; eauto.
    exists []. now rewrite app_nil_r.
  - unfold containsLetterEffect in Heff.
    destruct (isEmptyString input); inversion Heff; subst; [apply Hsame|].
    unfold neverErased, beginsWith. simpl. repeat split; eauto.
    exists []. now rewrite app_nil_r.
  - unfold randomLetterEffect in Heff.
    destruct (List.filter _ (uniqueLetters _)) as [|a av];
      [inversion Heff; subst; apply Hsame|].
    destruct (randomFloat r) as [k r0].
    destruct (pickAt (a :: av) k) as [l|]; inversion Heff; subst;
      [|apply Hsame].
    unfold neverErased, beginsWith. simpl. repeat split; eauto.
  - unfold patternPeekEffect in Heff.
    destruct (List.filter _ (seq 0 (String.length w))) as [|a av] eqn:Ef;
      [inversion Heff; subst; apply Hsame|].
    destruct (randomFloat r) as [k r0].
    destruct (pickAt (a :: av) k) as [idx|] eqn:Ep;
      [|inversion Heff; subst; apply Hsame].
    destruct (String.get idx w) as [c|]; inversion Heff; subst.
    assert (Hnew : default ∅ (pattern rv) !! idx = None).
    { assert (Hidx : In idx (a :: av)).
      { unfold pickAt in Ep. eapply nth_error_In; eauto. }
      rewrite <- Ef in Hidx. apply filter_In in Hidx.
      destruct Hidx as [_ Hidx].
      destruct (default ∅ (pattern rv) !! idx); [discriminate | reflexivity]. }
    unfold neverErased, beginsWith. simpl. repeat split; eauto.
    + exists []. now rewrite app_nil_r.
    + intros i ci Hi. rewrite lookup_insert_ne; [exact Hi|].
      intros ->. congruence.
  - unfold doubleTroubleEffect in Heff. inversion Heff; subst.
    unfold neverErased, beginsWith. simpl. repeat split; eauto.
    exists []. now rewrite app_nil_r.
Qed.

Lemma no_card_erases_a_clue_witness :
  In firstLetterCard HINT_CARDS
  /\ effect firstLetterCard "eel" (setLength noRevealed 3) "" zeroRand
     = Some (setFirstLetter (setLength noRevealed 3) "E"%char, zeroRand)
  /\ neverErased (setLength noRevealed 3)
       (setFirstLetter (setLength noRevealed 3) "E"%char).
Proof.
  assert (H1 : In firstLetterCard HINT_CARDS) by (simpl; tauto).
  assert (H2 : effect firstLetterCard "eel" (setLength noRevealed 3) ""
                 zeroRand
               = Some (setFirstLetter (setLength noRevealed 3) "E"%char,
                       zeroRand)) by reflexivity.
  repeat (split; [assumption|]).
  exact (no_card_erases_a_clue firstLetterCard "eel" _ "" zeroRand _ _ H1 H2).
Defined.

(** ** The word list *)

Section WordListFacts.

Lemma chars_append (a b : string) :
  chars (a ++ b)%string = chars a ++ chars b.
Proof. induction a as [|c a IH]; simpl; [reflexivity|]. now rewrite IH. Qed.

Lemma chars_toLowerCase (s : string) :
  chars (toLowerCase s) = map lowerChar (chars s).
Proof. induction s as [|c s IH]; simpl; [reflexivity|]. now f_equal. Qed.

Lemma isWhiteSpace_lowerChar (c : ascii) :
  isWhiteSpace (lowerChar c) = isWhiteSpace c.
Proof. destruct c as [[] [] [] [] [] [] [] []]; reflexivity. Qed.

Lemma toLowerCase_idem (s : string) :
  toLowerCase (toLowerCase s) = toLowerCase s.
Proof.
  induction s as [|c s IH]; simpl; [reflexivity|]. rewrite IH. f_equal.
  destruct c as [[] [] [] [] [] [] [] []]; reflexivity.
Qed.

Lemma splitRuns_no_space (s : string) :
  forall (cur : string) (inRun : bool) (t : string),
    (forall c, In c (chars cur) -> isWhiteSpace c = false) ->
    In t (splitRuns s cur inRun) ->
    forall c, In c (chars t) -> isWhiteSpace c = false.
Proof.
  induction s as [|a s IH]; intros cur inRun t Hcur Ht c Hc; simpl in Ht.
  - destruct Ht as [<-|[]]. now apply Hcur.
  - destruct (isWhiteSpace a) eqn:Ea.
    + destruct inRun.
      * apply (IH EmptyString true t); auto. intros x [].
      * destruct Ht as [<-|Ht]; [now apply Hcur|].
        apply (IH EmptyString true t); auto. intros x [].
    + apply (IH (cur ++ String a EmptyString)%string false t); auto.
      intros x Hx. rewrite chars_append in Hx. apply in_app_iff in Hx.
      destruct Hx as [Hx|[<-|[]]]; [now apply Hcur | exact Ea].
Qed.

Lemma trimEnd_no_space (s : string) :
  (forall c, In c (chars s) -> isWhiteSpace c = false) -> trimEnd s = s.
Proof.
  induction s as [|a s IH]; intros H; simpl; [reflexivity|].
  rewrite IH by (intros c Hc; apply H; now right).
  destruct s; [|reflexivity].
  now rewrite (H a (or_introl eq_refl)).
Qed.

Lemma trim_no_space (s : string) :
  (forall c, In c (chars s) -> isWhiteSpace c = false) -> trim s = s.
Proof.
  intros H. unfold trim.
  assert (Hs : trimStart s = s).
  { destruct s as [|a s]; simpl; [reflexivity|].
    now rewrite (H a (or_introl eq_refl)). }
  rewrite Hs. now apply trimEnd_no_space.
Qed.

Lemma token_lower_clean (text t : string) :
  In t (splitWhiteSpace text) ->
  (forall c, In c (chars (toLowerCase t)) -> isWhiteSpace c = false)
  /\ trim (toLowerCase t) = toLowerCase t.
Proof.
  intros Ht.
  assert (H : forall c, In c (chars (toLowerCase t)) -> isWhiteSpace c = false).
  { intros c Hc. rewrite chars_toLowerCase in Hc. apply in_map_iff in Hc.
    destruct Hc as (c0 & <- & Hc0). rewrite isWhiteSpace_lowerChar.
    apply (splitRuns_no_space text EmptyString false t); auto.
    intros x []. }
  split; [exact H | now apply trim_no_space].
Qed.

Lemma in_wordsOfText (text w : string) :
  w ∈ wordsOfText text
  <-> exists t, In t (splitWhiteSpace text) /\ 3 <= strLength t
                /\ w = toLowerCase t.
Proof.
  unfold wordsOfText, MIN_WORD_LENGTH.
  rewrite elem_of_list_to_set, list_elem_of_In, in_map_iff. split.
  - intros (t & <- & Ht). apply filter_In in Ht. destruct Ht as [Ht Hlen].
    apply Z.leb_le in Hlen. exists t. repeat split; auto.
    apply (token_lower_clean text t Ht).
  - intros (t & Ht & Hlen & ->). exists t. split.
    + apply (token_lower_clean text t Ht).
    + apply filter_In. split; [exact Ht | now apply Z.leb_le].
Qed.

End WordListFacts.

(** X24. Every word of the set that [loadDictionary] builds from the fetched
    text has at least 3 characters, no white space and no uppercase letter
    (lowercasing or trimming it again changes nothing). *)
Theorem loaded_words_are_clean (text w : string) :
  w ∈ wordsOfText text ->
  3 <= strLength w
  /\ ~ hasWhiteSpace w
  /\ toLowerCase w = w
  /\ trim w = w.
Proof.
  intros Hw. apply in_wordsOfText in Hw. destruct Hw as (t & Ht & Hlen & ->).
  destruct (token_lower_clean text t Ht) as [Hclean Htrim].
  split; [now rewrite strLength_toLowerCase|].
  split; [intros (c & Hc & Hws); rewrite (Hclean c Hc) in Hws; discriminate|].
  split; [apply toLowerCase_idem | now apply trim_no_space].
Qed.

Lemma loaded_words_are_clean_witness :
  "mouse" ∈ wordsOfText "Cat  Mouse at"
  /\ 3 <= strLength "mouse".
Proof.
  assert (H : "mouse" ∈ wordsOfText "Cat  Mouse at").
  { apply in_wordsOfText. exists "Mouse".
    split; [vm_compute; tauto | split; [vm_compute; discriminate | reflexivity]]. }
  split; [exact H|].
  exact (proj1 (loaded_words_are_clean "Cat  Mouse at" "mouse" H)).
Defined.

(** X25. With the dictionary built from the fetched text, [isValidWord]
    accepts a word exactly when its lowercase-trimmed form is the lowercase
    form of a piece of the text of at least 3 characters.  So every piece of
    at least 3 characters is valid in any letter case, and no piece of fewer
    characters is made valid by the list. *)
Theorem isValidWord_finds_the_listed_words (text w : string) :
  (isValidWord (dictionaryOfText text) w = true
   <-> exists t, In t (splitWhiteSpace text) /\ 3 <= strLength t
                 /\ toLowerCase t = trim (toLowerCase w))
  /\ (In w (splitWhiteSpace text) -> 3 <= strLength w ->
      isValidWord (dictionaryOfText text) w = true
      /\ isValidWord (dictionaryOfText text) (toUpperCase w) = true
      /\ isValidWord (dictionaryOfText text) (toLowerCase w) = true).
Proof.
  assert (Hiff : forall x,
             isValidWord (dictionaryOfText text) x = true
             <-> exists t, In t (splitWhiteSpace text) /\ 3 <= strLength t
                           /\ toLowerCase t = trim (toLowerCase x)).
  { intros x. unfold isValidWord, dictionaryOfText.
    rewrite bool_decide_eq_true, in_wordsOfText.
    split; intros (t & Ht & Hlen & Heq); exists t; auto. }
  split; [apply Hiff|].
  intros Hw Hlen. destruct (token_lower_clean text w Hw) as [_ Htrim].
  repeat split; apply Hiff; exists w; repeat split; auto.
  - rewrite toLowerCase_toUpperCase. auto.
  - rewrite toLowerCase_idem. auto.
Qed.

(** ** Guesses with white space *)

Section PaddedGuessFacts.



End PaddedGuessFacts.

(** ** Wrong and right guesses *)

Section GuessFacts.



End GuessFacts.




(** C3, at the input where the code departs from the claim.  Player 1 guesses
    in a state of the game whose opponent word is [stream], and the guess is
    that word followed by one space.  Lowercased and trimmed the guess equals
    the word, so the claim has it judged correct.  The handler trims the guess
    for its emptiness test only and compares the untrimmed text: it reports a
    wrong guess, leaves [guessSolved] false, logs the guess and gives the
    opponent 2 points. *)
Theorem submitGuess_trailing_space_is_wrong :
  reachable exampleGuessState
  /\ guessPhase exampleGuessState
  /\ secret (p2 exampleGuessState)
     = Some (mkSecret (letters (default (mkSecret [] "")
                                  (secret (p2 exampleGuessState)))) "stream")
  /\ trim (toLowerCase "stream ") = "stream"
  /\ exists g',
       submitGuess exampleGuessState "stream " zeroRand
       = Done g' (Some (WrongGuessNotice "stream ")) zeroRand
       /\ guessSolved (public (p1 g')) = false
       /\ score (public (p2 g')) = score (public (p2 exampleGuessState)) + 2
       /\ wrongGuesses g'
          = wrongGuesses exampleGuessState
            ++ [mkWrongGuess "Player 1" "stream " WRONG_GUESS_PENALTY]
       /\ phase g' = PASS_TO_GUESS_P2.
Proof.
  split; [apply exampleGuessState_reachable|].
  split; [left; reflexivity|].
  split; [reflexivity|]. split; [reflexivity|].
  eexists. split; [vm_compute; reflexivity|].
  repeat split; reflexivity.
Qed.



(** ** The winner *)


